(** * rembg-clean: the edge defringe engine ([defringe_white_v2])

    A shallow embedding of [src/rembg_clean/cli.py], lines 15-46, and the
    properties of it that the specification states.

    The function works on a [float32] NumPy array.  A Python scalar that
    meets the array ([bg], [a_low], [a_high], [strength], a literal) is a
    binary64 value that NumPy casts to [float32] before the operation
    (the promotion rules of NumPy 2; NumPy 1 agrees whenever the scalar
    fits a [float32]); an expression of Python scalars alone
    ([1.0 - strength], [0.08 * erode_alpha_px]) is computed in binary64
    first.  Both formats are modelled bit for bit with the IEEE 754
    specification of the Standard Library ([SpecFloat]): a value is a
    [spec_float], an operation is the library's correctly rounded one at
    24 bits of precision (binary32) or at 53 bits (binary64). *)

From Stdlib Require Import ZArith Lia List Bool SpecFloat Strings.Byte.
From stdpp Require Import base gmap strings.

Local Open Scope Z_scope.

(** ** Floating point formats *)

Definition f32 := spec_float.
Definition f64 := spec_float.

Definition is_nan (x : spec_float) : bool :=
  match x with S754_nan => true | _ => false end.

Definition is_infinity (x : spec_float) : bool :=
  match x with S754_infinity _ => true | _ => false end.

(** Finite in the sense of IEEE 754: a zero or a non-zero number. *)
Definition is_finite (x : spec_float) : bool :=
  match x with S754_zero _ | S754_finite _ _ _ => true | _ => false end.

(** Python [float]: binary64. *)
Module F64.
Definition prec := 53.
Definition emax := 1024.
Definition valid (x : f64) : bool := valid_binary prec emax x.
Definition sub : f64 -> f64 -> f64 := SFsub prec emax.
Definition mul : f64 -> f64 -> f64 := SFmul prec emax.
Definition div : f64 -> f64 -> f64 := SFdiv prec emax.
(** [float(n)] of a Python [int], rounded to nearest, ties to even. *)
Definition of_Z (n : Z) : f64 := binary_normalize prec emax n 0 false.
(** The decimal literal [p/q] for integers that binary64 holds exactly
    ([0.08] is [dec 8 100], [1e-6] is [dec 1 1000000]): the division is
    correctly rounded, as the parser's conversion is. *)
Definition dec (p q : Z) : f64 := div (of_Z p) (of_Z q).
End F64.

(** NumPy [float32]: binary32. *)
Module F32.
Definition prec := 24.
Definition emax := 128.
Definition valid (x : f32) : bool := valid_binary prec emax x.
Definition add : f32 -> f32 -> f32 := SFadd prec emax.
Definition sub : f32 -> f32 -> f32 := SFsub prec emax.
Definition mul : f32 -> f32 -> f32 := SFmul prec emax.
Definition div : f32 -> f32 -> f32 := SFdiv prec emax.
Definition ltb : f32 -> f32 -> bool := SFltb.
Definition leb : f32 -> f32 -> bool := SFleb.
Definition of_Z (n : Z) : f32 := binary_normalize prec emax n 0 false.
(** The cast of a Python scalar that meets a [float32] array. *)
Definition of_f64 (x : f64) : f32 :=
  match x with
  | S754_finite s m e => binary_round prec emax s m e
  | _ => x
  end.
End F32.

(** The integer part of a finite value, rounded toward zero. *)
Definition trunc (x : spec_float) : option Z :=
  match x with
  | S754_zero _ => Some 0
  | S754_finite s m e => Some (cond_Zopp s (Z.shiftl (Zpos m) e))
  | _ => None
  end.

Definition byte_of_Z (z : Z) : byte :=
  match Byte.of_N (Z.to_N (z mod 256)) with
  | Some b => b
  | None => x00
  end.

Definition Z_of_byte (b : byte) : Z := Z.of_N (Byte.to_N b).

(** [ndarray.astype(np.uint8)] on a [float32]: the value is truncated
    toward zero.  NumPy leaves a value outside the target range to the C
    conversion; what is written here is the x86-64 result (conversion to a
    32-bit integer, of which the low byte is kept; 0 for NaN, the
    infinities and what does not fit 32 bits).  Between -1 and 256
    (exclusive) it is plain truncation on every platform. *)
Definition astype_uint8 (x : f32) : byte :=
  match trunc x with
  | Some z =>
      if (- 2 ^ 31 <? z) && (z <? 2 ^ 31) then byte_of_Z z else x00
  | None => x00
  end.

(** A float that the cast takes to its integer part, with no wrap-around:
    a finite value at least 0 and below 256. *)
Definition no_wrap (x : f32) : Prop :=
  is_finite x = true /\
  F32.leb (F32.of_Z 0) x = true /\
  F32.ltb x (F32.of_Z 256) = true /\
  trunc x = Some (Z_of_byte (astype_uint8 x)).

(** ** NumPy element-wise helpers *)

(** [np.clip] is [min (max x lo) hi] with the comparisons of the C loop:
    a NaN element is returned as it is. *)
Definition npy_max (x y : f32) : f32 :=
  if is_nan x then x else if F32.ltb y x then x else y.

Definition npy_min (x y : f32) : f32 :=
  if is_nan x then x else if F32.ltb x y then x else y.

Definition clip (x lo hi : f32) : f32 := npy_min (npy_max x lo) hi.

(** ** Data model *)

(** A pixel of the RGBA array that [Image.open(...).convert("RGBA")]
    yields: four unsigned 8-bit samples. *)
Record pixel := Pixel { R : byte; G : byte; B : byte; A : byte }.

(** The pixel of four given sample values. *)
Definition px (r g b a : Z) : pixel :=
  Pixel (byte_of_Z r) (byte_of_Z g) (byte_of_Z b) (byte_of_Z a).

(** The array, row by row. *)
Definition raster := list (list pixel).

Definition height (arr : raster) : nat := length arr.
Definition widths (arr : raster) : list nat := map (@length pixel) arr.

(** The pixel at row [i], column [j]. *)
Definition pixel_at (arr : raster) (i j : nat) : option pixel :=
  match nth_error arr i with
  | Some row => nth_error row j
  | None => None
  end.

(** The keyword arguments of [defringe_white_v2]. *)
Record config := Config {
  bg : f64;
  a_low : f64;
  a_high : f64;
  strength : f64;
  erode_alpha_px : Z
}.

Definition default_config : config :=
  Config (F64.of_Z 255) (F64.dec 5 100) (F64.dec 95 100) (F64.of_Z 1) 0.

(** What a call can raise.  [DecodeError] stands for PIL failing to open
    or convert the input; [OverflowError] is Python's, for an [int] too
    large for a [float]; [InvalidConfig] is the name the specification
    gives to a rejected threshold pair. *)
Inductive exn := DecodeError | InvalidConfig | OverflowError.

Inductive result (T : Type) :=
| Ok (v : T)
| Raise (e : exn).
Arguments Ok {T} v.
Arguments Raise {T} e.

(** ** The algorithm, line by line *)

(** [arr = np.array(im).astype(np.float32)] *)
Definition as_float32 (b : byte) : f32 := F32.of_Z (Z_of_byte b).

(** [a = arr[..., 3] / 255.0] *)
Definition alpha (p : pixel) : f32 :=
  F32.div (as_float32 (A p)) (F32.of_f64 (F64.of_Z 255)).

(** [edge = (a > a_low) & (a < a_high)] *)
Definition edge (cfg : config) (a : f32) : bool :=
  F32.ltb (F32.of_f64 (a_low cfg)) a && F32.ltb a (F32.of_f64 (a_high cfg)).

(** [safe_a = np.clip(a, 1e-6, 1.0)] *)
Definition safe_a (a : f32) : f32 :=
  clip a (F32.of_f64 (F64.dec 1 1000000)) (F32.of_f64 (F64.of_Z 1)).

(** [(rgb - bg * (1.0 - safe_a)) / safe_a], one channel, before the clip *)
Definition unmix (bg32 : f32) (a c : f32) : f32 :=
  F32.div
    (F32.sub c (F32.mul bg32 (F32.sub (F32.of_f64 (F64.of_Z 1)) (safe_a a))))
    (safe_a a).

(** [fg = np.clip(fg, 0, 255)] *)
Definition fg (cfg : config) (a c : f32) : f32 :=
  clip (unmix (F32.of_f64 (bg cfg)) a c) (F32.of_Z 0) (F32.of_Z 255).

(** [(1.0 - strength) * rgb[edge] + strength * fg[edge]] *)
Definition blend (s : f64) (c f : f32) : f32 :=
  F32.add (F32.mul (F32.of_f64 (F64.sub (F64.of_Z 1) s)) c)
          (F32.mul (F32.of_f64 s) f).

(** [rgb_new = rgb.copy(); rgb_new[edge] = ...], one channel *)
Definition rgb_new (cfg : config) (a : f32) (b : byte) : f32 :=
  if edge cfg a then blend (strength cfg) (as_float32 b) (fg cfg a (as_float32 b))
  else as_float32 b.

(** [0.08 * erode_alpha_px]: Python converts the [int] first and raises
    [OverflowError] when it is too large. *)
Definition erosion (n : Z) : result f64 :=
  let x := F64.of_Z n in
  if is_infinity x then Raise OverflowError
  else Ok (F64.mul (F64.dec 8 100) x).

(** [np.clip(a_new[edge] - (0.08 * erode_alpha_px), 0, 1)] *)
Definition eroded (d : f64) (a : f32) : f32 :=
  clip (F32.sub a (F32.of_f64 d)) (F32.of_Z 0) (F32.of_Z 1).

(** [a_new]: [d] is [None] when [erode_alpha_px > 0] is false. *)
Definition a_new (cfg : config) (d : option f64) (a : f32) : f32 :=
  match d with
  | Some d => if edge cfg a then eroded d a else a
  | None => a
  end.

(** A pixel of [out = np.dstack([rgb_new, a_new * 255.0])]. *)
Record fpixel := FPixel { fR : f32; fG : f32; fB : f32; fA : f32 }.

Definition out_pixel (cfg : config) (d : option f64) (p : pixel) : fpixel :=
  let a := alpha p in
  FPixel (rgb_new cfg a (R p)) (rgb_new cfg a (G p)) (rgb_new cfg a (B p))
         (F32.mul (a_new cfg d a) (F32.of_f64 (F64.of_Z 255))).

(** [out.astype(np.uint8)] *)
Definition quantize (q : fpixel) : pixel :=
  Pixel (astype_uint8 (fR q)) (astype_uint8 (fG q)) (astype_uint8 (fB q))
        (astype_uint8 (fA q)).

Definition defringe_pixel (cfg : config) (d : option f64) (p : pixel) : pixel :=
  quantize (out_pixel cfg d p).

(** The float array [out], before the cast. *)
Definition out_array (cfg : config) (d : option f64) (arr : raster)
  : list (list fpixel) :=
  map (map (out_pixel cfg d)) arr.

(** [if erode_alpha_px > 0:]: the amount subtracted from the alpha of
    the edge band, when there is one. *)
Definition erode_arg (n : Z) : result (option f64) :=
  if 0 <? n then
    match erosion n with
    | Ok d => Ok (Some d)
    | Raise e => Raise e
    end
  else Ok None.

(** The one failure of the arithmetic: an [erode_alpha_px] that is
    positive and does not fit a [float]. *)
Definition raises_overflow (cfg : config) : bool :=
  (0 <? erode_alpha_px cfg) && is_infinity (F64.of_Z (erode_alpha_px cfg)).

(** Lines 25-46 without the file access: from the decoded array to the
    array handed to [Image.fromarray]. *)
Definition defringe_core (cfg : config) (arr : raster) : result raster :=
  match erode_arg (erode_alpha_px cfg) with
  | Ok d => Ok (map (map quantize) (out_array cfg d arr))
  | Raise e => Raise e
  end.

(** The files the call can see: a path is bound to the RGBA array its
    content decodes to, and unbound when PIL cannot open or convert it. *)
Definition defringe_white_v2 (png_in png_out : string) (cfg : config)
    (files : gmap string raster) : result (gmap string raster) :=
  match files !! png_in with
  | None => Raise DecodeError
  | Some arr =>
      match defringe_core cfg arr with
      | Ok out => Ok (<[png_out := out]> files)
      | Raise e => Raise e
      end
  end.

(** ** Reading a float as an integer

    Every finite value of either format is a multiple of [2 ^ (- B)] once
    [B] is large enough, so a float is read as the integer [val x], its
    value times [2 ^ B]; an infinity is read as the first power of two
    the format cannot hold.  [RNs] is rounding to nearest, ties to even,
    on such integers: the lemmas below show that the library's operations
    compute it. *)

(** Where a remainder [r] lies in a step [h]: at 0, below, at or above
    the middle. *)
Definition rem_loc (r h : Z) : location :=
  if r =? 0 then loc_Exact else loc_Inexact (Z.compare (2 * r) h).

(** The magnitude of a float, times [2 ^ B]. *)
Definition mag (emax B : Z) (x : spec_float) : Z :=
  match x with
  | S754_finite _ m e => Zpos m * 2 ^ (e + B)
  | S754_infinity _ => 2 ^ (emax + B)
  | _ => 0
  end.

Definition sign_of (x : spec_float) : bool :=
  match x with
  | S754_zero s | S754_infinity s | S754_finite s _ _ => s
  | S754_nan => false
  end.

(** [m / 2 ^ k], rounded to nearest, ties to even. *)
Definition rne (m k : Z) : Z :=
  round_nearest_even (m / 2 ^ k) (rem_loc (m mod 2 ^ k) (2 ^ k)).

(** The exponent of the last place of a float near [v], plus [B]. *)
Definition rexp (prec emax B v : Z) : Z :=
  Z.max (Zdigits2 v - prec) (emin prec emax + B).

(** The float nearest to [v >= 0], times [2 ^ B]; an overflow is read as
    the infinity. *)
Definition RN (prec emax B v : Z) : Z :=
  Z.min (rne v (rexp prec emax B v) * 2 ^ rexp prec emax B v) (2 ^ (emax + B)).

(** The same for either sign. *)
Definition RNs (prec emax B v : Z) : Z :=
  if v <? 0 then - RN prec emax B (- v) else RN prec emax B v.

(** The value of a float, times [2 ^ B]. *)
Definition val (emax B : Z) (x : spec_float) : Z :=
  cond_Zopp (sign_of x) (mag emax B x).

(** The second half of [binary_round_aux]: the rounded mantissa [n] at
    exponent [t] is renormalised and checked for overflow. *)
Definition finish (prec emax : Z) (s : bool) (n t : Z) : spec_float :=
  let '(mrs, e) := shr_fexp prec emax n t loc_Exact in
  match shr_m mrs with
  | Z0 => S754_zero s
  | Zpos m => if e <=? emax - prec then S754_finite s m e else S754_infinity s
  | _ => S754_nan
  end.

(** Closes [Some c = Some (a ?= b)] for a given [c]. *)
Ltac cmp_solve :=
  f_equal; symmetry;
  match goal with
  | |- _ = Lt => apply Z.compare_lt_iff
  | |- _ = Gt => apply Z.compare_gt_iff
  | |- _ = Eq => apply Z.compare_eq_iff
  end; lia.

(** The pairs of operands of which one is not a finite number. *)
Ltac special_cases x y :=
  destruct x as [[]|[]| |[] ? ?], y as [[]|[]| |[] ? ?];
  try discriminate; try reflexivity; try assumption.

(** * Rounding in [SpecFloat]

    What follows relates the operations of the library to [RNs]: each
    returns a well-formed float whose reading is the rounding of the
    exact result.  Monotonicity of the operations follows from that of
    [RNs]. *)

(** ** Binary digits *)

Lemma digits2_pos_size m : digits2_pos m = Pos.size m.
Proof. induction m; simpl; congruence. Qed.

Lemma Zdigits2_log2 n : 0 < n -> Zdigits2 n = Z.log2 n + 1.
Proof.
  destruct n as [|p|p]; try lia. intros _. simpl.
  rewrite digits2_pos_size. destruct p; simpl; lia.
Qed.

Lemma Zdigits2_nonneg n : 0 <= Zdigits2 n.
Proof. destruct n; simpl; lia. Qed.

Lemma Zdigits2_bounds n : 0 < n -> 2 ^ (Zdigits2 n - 1) <= n < 2 ^ Zdigits2 n.
Proof.
  intros H. rewrite Zdigits2_log2 by lia.
  replace (Z.log2 n + 1 - 1) with (Z.log2 n) by lia.
  replace (Z.log2 n + 1) with (Z.succ (Z.log2 n)) by lia.
  apply Z.log2_spec; lia.
Qed.

Lemma Zdigits2_lt_pow n : 0 <= n -> n < 2 ^ Zdigits2 n.
Proof.
  intros H. destruct (Z.eq_dec n 0) as [->|]; [reflexivity|].
  apply Zdigits2_bounds; lia.
Qed.

Lemma Zdigits2_le n b : 0 <= n -> 0 <= b -> n < 2 ^ b -> Zdigits2 n <= b.
Proof.
  intros H Hb Hn. destruct (Z.eq_dec n 0) as [->|]; [simpl; lia|].
  rewrite Zdigits2_log2 by lia.
  assert (Z.log2 n < b) by (apply Z.log2_lt_pow2; lia). lia.
Qed.

Lemma Zdigits2_ge n b : 0 < n -> 2 ^ b <= n -> b < Zdigits2 n.
Proof.
  intros H Hn. rewrite Zdigits2_log2 by lia.
  destruct (Z_lt_le_dec b 0); [pose proof (Z.log2_nonneg n); lia|].
  assert (b <= Z.log2 n) by (apply Z.log2_le_pow2; lia). lia.
Qed.

(** ** Shifting a mantissa to the right *)

Lemma shr_1_m mrs : 0 <= shr_m mrs -> shr_m (shr_1 mrs) = shr_m mrs / 2.
Proof.
  destruct mrs as [m r s]; simpl. intros H.
  destruct m as [|[p|p|]|p]; try lia; simpl; try reflexivity.
  - rewrite Pos2Z.inj_xI. apply Z.div_unique with 1; lia.
  - rewrite Pos2Z.inj_xO. apply Z.div_unique with 0; lia.
Qed.

Lemma shr_1_loc mrs :
  0 <= shr_m mrs ->
  loc_of_shr_record (shr_1 mrs) =
  match loc_of_shr_record mrs, Z.odd (shr_m mrs) with
  | loc_Exact, false => loc_Exact
  | _, false => loc_Inexact Lt
  | loc_Exact, true => loc_Inexact Eq
  | _, true => loc_Inexact Gt
  end.
Proof.
  destruct mrs as [m r s]; simpl. intros H.
  destruct m as [|[p|p|]|p]; try lia; destruct r, s; reflexivity.
Qed.

Lemma iter_pos_inv (I : Z -> shr_record -> Prop) :
  (forall j st, 0 <= j -> I j st -> I (j + 1) (shr_1 st)) ->
  forall p j st, 0 <= j -> I j st -> I (j + Zpos p) (SpecFloat.iter_pos shr_1 p st).
Proof.
  intros Hstep. induction p as [p IH|p IH|]; intros j st Hj HI; simpl.
  - replace (j + Zpos p~1) with (j + 1 + Zpos p + Zpos p) by lia.
    apply IH; [lia|]. apply IH; [lia|]. now apply Hstep.
  - replace (j + Zpos p~0) with (j + Zpos p + Zpos p) by lia.
    apply IH; [lia|]. now apply IH.
  - now apply Hstep.
Qed.

Lemma iter_shr_m p mrs :
  0 <= shr_m mrs ->
  shr_m (SpecFloat.iter_pos shr_1 p mrs) = shr_m mrs / 2 ^ Zpos p.
Proof.
  intros H.
  pose (I := fun j st => shr_m st = shr_m mrs / 2 ^ j).
  assert (HI : I (0 + Zpos p) (SpecFloat.iter_pos shr_1 p mrs)).
  { apply iter_pos_inv; [|lia|].
    - intros j st Hj Hst. unfold I in *.
      rewrite shr_1_m, Hst.
      + rewrite Z.pow_add_r, Z.pow_1_r by lia.
        rewrite Z.div_div by lia. reflexivity.
      + rewrite Hst. apply Z.div_pos; lia.
    - unfold I. now rewrite Z.pow_0_r, Z.div_1_r. }
  exact HI.
Qed.

Lemma iter_shr_loc p M :
  0 <= M ->
  loc_of_shr_record (SpecFloat.iter_pos shr_1 p (Build_shr_record M false false)) =
  rem_loc (M mod 2 ^ Zpos p) (2 ^ Zpos p).
Proof.
  intros H.
  pose (I := fun j st => shr_m st = M / 2 ^ j /\
                         loc_of_shr_record st = rem_loc (M mod 2 ^ j) (2 ^ j)).
  assert (HI : I (0 + Zpos p)
                 (SpecFloat.iter_pos shr_1 p (Build_shr_record M false false))).
  { apply iter_pos_inv; [|lia|].
    - intros j st Hj [Hm Hl]. unfold I.
      assert (Hp : 0 < 2 ^ j) by (apply Z.pow_pos_nonneg; lia).
      assert (Hnn : 0 <= shr_m st) by (rewrite Hm; apply Z.div_pos; lia).
      split.
      + rewrite shr_1_m, Hm by assumption.
        rewrite Z.pow_add_r, Z.pow_1_r by lia.
        rewrite Z.div_div by lia. reflexivity.
      + rewrite shr_1_loc, Hl, Hm by assumption.
        rewrite Z.pow_add_r, Z.pow_1_r by lia.
        assert (Hd : M mod (2 ^ j * 2) = M mod 2 ^ j + 2 ^ j * ((M / 2 ^ j) mod 2))
          by (apply Z.rem_mul_r; lia).
        rewrite Hd.
        pose proof (Z.mod_pos_bound M (2 ^ j) Hp) as Hb.
        rewrite Zodd_mod.
        pose proof (Z.mod_pos_bound (M / 2 ^ j) 2 ltac:(lia)) as Hb2.
        unfold rem_loc.
        destruct (Z.eqb_spec (M mod 2 ^ j) 0) as [E0|E0];
        destruct (Z.eqb_spec ((M / 2 ^ j) mod 2) 1) as [E1|E1].
        * rewrite E0, E1.
          destruct (Z.eqb_spec (0 + 2 ^ j * 1) 0); [lia|].
          f_equal. symmetry. apply Z.compare_eq_iff. lia.
        * assert (E2 : (M / 2 ^ j) mod 2 = 0) by lia.
          rewrite E0, E2. replace (0 + 2 ^ j * 0) with 0 by lia. reflexivity.
        * rewrite E1.
          destruct (Z.eqb_spec (M mod 2 ^ j + 2 ^ j * 1) 0); [lia|].
          f_equal. symmetry. apply Z.compare_gt_iff. lia.
        * assert (E2 : (M / 2 ^ j) mod 2 = 0) by lia.
          rewrite E2. replace (M mod 2 ^ j + 2 ^ j * 0) with (M mod 2 ^ j) by lia.
          destruct (Z.eqb_spec (M mod 2 ^ j) 0); [lia|].
          f_equal. symmetry. apply Z.compare_lt_iff. lia.
    - unfold I. rewrite Z.pow_0_r, Z.div_1_r, Z.mod_1_r. now split. }
  apply HI.
Qed.

Lemma shr_nonpos mrs e k : k <= 0 -> shr mrs e k = (mrs, e).
Proof. destruct k; simpl; intros; try reflexivity; lia. Qed.

Lemma shr_pos mrs e k :
  0 < k -> shr mrs e k = (SpecFloat.iter_pos shr_1 (Z.to_pos k) mrs, e + k).
Proof. destruct k; simpl; intros; try reflexivity; lia. Qed.

(** ** Powers of two *)

Lemma pow2_pos a : 0 <= a -> 0 < 2 ^ a.
Proof. intros. apply Z.pow_pos_nonneg; lia. Qed.

Lemma pow2_le a b : 0 <= a -> a <= b -> 2 ^ a <= 2 ^ b.
Proof. intros. apply Z.pow_le_mono_r; lia. Qed.

Lemma pow2_lt a b : 0 <= a -> a < b -> 2 ^ a < 2 ^ b.
Proof. intros. apply Z.pow_lt_mono_r; lia. Qed.

Lemma pow2_split a b : 0 <= a -> a <= b -> 2 ^ b = 2 ^ (b - a) * 2 ^ a.
Proof. intros. rewrite <- Z.pow_add_r by lia. f_equal. lia. Qed.

(** ** Rounding an integer to a multiple of a power of two *)

Lemma rem_loc_scale r h c : 0 < c -> rem_loc (r * c) (h * c) = rem_loc r h.
Proof.
  intros Hc. unfold rem_loc.
  destruct (Z.eqb_spec r 0) as [->|Hr].
  - reflexivity.
  - destruct (Z.eqb_spec (r * c) 0) as [E|_]; [nia|].
    f_equal. rewrite Z.mul_assoc. symmetry. apply Zmult_compare_compat_r. lia.
Qed.

Lemma rne_scale m k c :
  0 <= k -> 0 <= c -> rne (m * 2 ^ c) (k + c) = rne m k.
Proof.
  intros Hk Hc. unfold rne.
  assert (H1 : 0 < 2 ^ c) by now apply pow2_pos.
  assert (H2 : 0 < 2 ^ k) by now apply pow2_pos.
  rewrite Z.pow_add_r by lia.
  rewrite Z.div_mul_cancel_r by lia.
  rewrite Z.mul_mod_distr_r by lia.
  now rewrite rem_loc_scale.
Qed.

(** ** Aligning a mantissa on an exponent *)

Lemma pos_iter_xO m d : Zpos (Pos.iter xO m d) = Zpos m * 2 ^ Zpos d.
Proof.
  induction d as [|d IH] using Pos.peano_ind.
  - simpl. lia.
  - rewrite Pos.iter_succ, Pos2Z.inj_xO, IH, Pos2Z.inj_succ.
    rewrite Z.pow_succ_r by lia. lia.
Qed.

Lemma shl_align_lt m e e' :
  e' < e ->
  exists m', shl_align m e e' = (m', e') /\ Zpos m' = Zpos m * 2 ^ (e - e').
Proof.
  intros H. unfold shl_align.
  destruct (e' - e) as [|d|d] eqn:E; try lia.
  eexists. split; [reflexivity|]. rewrite pos_iter_xO. f_equal. f_equal. lia.
Qed.

Lemma shl_align_ge m e e' : e <= e' -> shl_align m e e' = (m, e).
Proof.
  intros H. unfold shl_align.
  destruct (e' - e) as [|d|d] eqn:E; try lia; reflexivity.
Qed.

(** ** More on digits and on [rne] *)

Lemma Zdigits2_mul_pow2 m c : 0 < m -> 0 <= c -> Zdigits2 (m * 2 ^ c) = Zdigits2 m + c.
Proof.
  intros Hm Hc. assert (0 < 2 ^ c) by now apply pow2_pos.
  rewrite !Zdigits2_log2 by nia. rewrite Z.log2_mul_pow2 by lia. lia.
Qed.

Lemma Zdigits2_mono a b : 0 <= a <= b -> Zdigits2 a <= Zdigits2 b.
Proof.
  intros [Ha Hab]. destruct (Z.eq_dec a 0) as [->|Hne].
  - apply Zdigits2_nonneg.
  - rewrite !Zdigits2_log2 by lia.
    assert (Z.log2 a <= Z.log2 b) by (apply Z.log2_le_mono; lia). lia.
Qed.

Lemma rne_exact v u : v mod 2 ^ u = 0 -> rne v u = v / 2 ^ u.
Proof. intros H. unfold rne. rewrite H. reflexivity. Qed.

Lemma rne_range v u : v / 2 ^ u <= rne v u <= v / 2 ^ u + 1.
Proof.
  unfold rne. generalize (rem_loc (v mod 2 ^ u) (2 ^ u)).
  intros [|[]]; simpl; try lia. destruct (Z.even (v / 2 ^ u)); lia.
Qed.

Lemma rne_mono v1 v2 u : 0 <= v1 <= v2 -> 0 <= u -> rne v1 u <= rne v2 u.
Proof.
  intros Hv Hu.
  assert (Hp : 0 < 2 ^ u) by now apply pow2_pos.
  assert (Hq : v1 / 2 ^ u <= v2 / 2 ^ u) by (apply Z.div_le_mono; lia).
  pose proof (rne_range v1 u) as R1. pose proof (rne_range v2 u) as R2.
  destruct (Z.eq_dec (v1 / 2 ^ u) (v2 / 2 ^ u)) as [E|NE]; [|lia].
  pose proof (Z.div_mod v1 (2 ^ u) ltac:(lia)) as D1.
  pose proof (Z.div_mod v2 (2 ^ u) ltac:(lia)) as D2.
  pose proof (Z.mod_pos_bound v1 (2 ^ u) Hp) as B1.
  pose proof (Z.mod_pos_bound v2 (2 ^ u) Hp) as B2.
  assert (Hr : v1 mod 2 ^ u <= v2 mod 2 ^ u) by (rewrite E in D1; lia).
  unfold rne, rem_loc, round_nearest_even. rewrite E.
  destruct (Z.eqb_spec (v1 mod 2 ^ u) 0), (Z.eqb_spec (v2 mod 2 ^ u) 0);
    destruct (Z.compare_spec (2 * (v1 mod 2 ^ u)) (2 ^ u));
    destruct (Z.compare_spec (2 * (v2 mod 2 ^ u)) (2 ^ u));
    destruct (Z.even (v2 / 2 ^ u)); lia.
Qed.

Lemma shl_align_val m e e' C :
  e' <= e -> 0 <= e' + C ->
  Zpos (fst (shl_align m e e')) * 2 ^ (e' + C) = Zpos m * 2 ^ (e + C).
Proof.
  intros H HC. destruct (Z.eq_dec e' e) as [->|NE].
  - now rewrite shl_align_ge by lia.
  - destruct (shl_align_lt m e e' ltac:(lia)) as (m' & -> & E). simpl.
    rewrite E, <- Z.mul_assoc, <- Z.pow_add_r by lia. f_equal. f_equal. lia.
Qed.

(** ** One format

    [prec] and [emax] are those of the format; [B] is any scale that
    makes the smallest positive value an integer. *)

Section Format.
Variables prec emax B : Z.
Hypothesis Hprec : 0 < prec.
Hypothesis Hemax : prec < emax.
Hypothesis HB : 0 <= emin prec emax + B.


(** *** The last step of a rounding *)

Lemma finish_spec s n t :
  0 <= n <= 2 ^ prec -> emin prec emax <= t ->
  (emin prec emax < t -> 2 ^ (prec - 1) <= n) ->
  valid_binary prec emax (finish prec emax s n t) = true /\
  is_nan (finish prec emax s n t) = false /\
  sign_of (finish prec emax s n t) = s /\
  mag emax B (finish prec emax s n t) = Z.min (n * 2 ^ (t + B)) (2 ^ (emax + B)).
Proof using Hprec Hemax HB.
  intros Hn Ht Hnorm. unfold finish, shr_fexp.
  assert (Hcap : 0 < 2 ^ (emax + B)) by (apply pow2_pos; unfold emin in *; lia).
  assert (HtB : 0 < 2 ^ (t + B)) by (apply pow2_pos; lia).
  destruct (Z.eq_dec n 0) as [->|Hn0].
  { rewrite shr_nonpos by (simpl; unfold fexp, emin in *; lia).
    simpl. repeat split; try reflexivity. lia. }
  destruct (Z.eq_dec n (2 ^ prec)) as [En|En].
  - (* carry: the mantissa is 2^prec *)
    assert (Hd : Zdigits2 n = prec + 1).
    { rewrite Zdigits2_log2 by lia. rewrite En, Z.log2_pow2 by lia. lia. }
    rewrite Hd.
    replace (fexp prec emax (prec + 1 + t) - t) with 1
      by (unfold fexp, emin in *; lia).
    rewrite shr_pos by lia. change (Z.to_pos 1) with 1%positive.
    cbn [SpecFloat.iter_pos].
    assert (Hm : shr_m (shr_1 (shr_record_of_loc n loc_Exact)) = 2 ^ (prec - 1)).
    { rewrite shr_1_m by (simpl; lia). simpl. rewrite En.
      rewrite (pow2_split 1 prec) by lia. rewrite Z.pow_1_r.
      now rewrite Z.div_mul by lia. }
    rewrite Hm.
    assert (Hp1 : 0 < 2 ^ (prec - 1)) by (apply pow2_pos; lia).
    destruct (2 ^ (prec - 1)) as [|pm|pm] eqn:Epm; try lia.
    assert (Hval : Zpos pm * 2 ^ (t + 1 + B) = n * 2 ^ (t + B)).
    { rewrite <- Epm, En. rewrite <- !Z.pow_add_r by lia. f_equal. lia. }
    destruct (Z.leb_spec (t + 1) (emax - prec)) as [Hle|Hgt].
    + repeat split; try reflexivity.
      * simpl. unfold bounded, canonical_mantissa.
        apply andb_true_intro. split; [|apply Z.leb_le; lia].
        apply Z.eqb_eq.
        change (Zpos (digits2_pos pm)) with (Zdigits2 (Zpos pm)).
        rewrite Zdigits2_log2 by lia. rewrite <- Epm, Z.log2_pow2 by lia.
        unfold fexp, emin in *. lia.
      * simpl. rewrite Hval. symmetry. apply Z.min_l.
        rewrite En, <- Z.pow_add_r by lia. apply pow2_le; lia.
    + repeat split; try reflexivity.
      simpl. symmetry. apply Z.min_r.
      rewrite En, <- Z.pow_add_r by lia. apply pow2_le; unfold emin in *; lia.
  - (* no carry *)
    assert (Hlt : n < 2 ^ prec) by lia.
    assert (Hd : Zdigits2 n <= prec) by (apply Zdigits2_le; lia).
    pose proof (Zdigits2_nonneg n) as Hd0.
    rewrite shr_nonpos by (unfold fexp, emin in *; lia).
    simpl shr_m.
    destruct n as [|pn|pn] eqn:En'; try lia.
    destruct (Z.leb_spec t (emax - prec)) as [Hle|Hgt].
    + repeat split; try reflexivity.
      * simpl. unfold bounded, canonical_mantissa.
        apply andb_true_intro. split; [|apply Z.leb_le; lia].
        apply Z.eqb_eq.
        change (Zpos (digits2_pos pn)) with (Zdigits2 (Zpos pn)).
        destruct (Z.eq_dec t (emin prec emax)) as [Et|Et].
        -- unfold fexp, emin in *. lia.
        -- assert (prec - 1 < Zdigits2 (Zpos pn))
             by (apply Zdigits2_ge; lia).
           unfold fexp, emin in *. lia.
      * simpl. symmetry. apply Z.min_l.
        apply Z.le_trans with (2 ^ prec * 2 ^ (t + B)).
        -- apply Z.mul_le_mono_nonneg_r; lia.
        -- rewrite <- Z.pow_add_r by lia. apply pow2_le; lia.
    + repeat split; try reflexivity.
      simpl. symmetry. apply Z.min_r.
      assert (Hn1 : 2 ^ (prec - 1) <= Zpos pn)
        by (apply Hnorm; unfold emin in *; lia).
      apply Z.le_trans with (2 ^ (prec - 1) * 2 ^ (t + B)).
      -- rewrite <- Z.pow_add_r by lia. apply pow2_le; unfold emin in *; lia.
      -- apply Z.mul_le_mono_nonneg_r; lia.
Qed.

(** *** [binary_round_aux] *)

Lemma bra_unfold s mx ex lx :
  binary_round_aux prec emax s mx ex lx =
  finish prec emax s (round_nearest_even (shr_m (fst (shr_fexp prec emax mx ex lx)))
              (loc_of_shr_record (fst (shr_fexp prec emax mx ex lx))))
         (snd (shr_fexp prec emax mx ex lx)).
Proof.
  unfold binary_round_aux, finish.
  destruct (shr_fexp prec emax mx ex lx) as [mrs' e']. reflexivity.
Qed.

Lemma shr_record_of_loc_m m l : shr_m (shr_record_of_loc m l) = m.
Proof. destruct l as [|[]]; reflexivity. Qed.

Lemma shr_fexp_m mx ex lx k :
  0 <= mx -> k = fexp prec emax (Zdigits2 mx + ex) - ex -> 0 <= k ->
  shr_m (fst (shr_fexp prec emax mx ex lx)) = mx / 2 ^ k /\
  snd (shr_fexp prec emax mx ex lx) = ex + k.
Proof.
  intros Hm Hk Hk0. unfold shr_fexp. rewrite <- Hk.
  destruct (Z.eq_dec k 0) as [->|Hne].
  - rewrite shr_nonpos by lia. simpl.
    rewrite shr_record_of_loc_m, Z.div_1_r. split; [reflexivity|lia].
  - rewrite shr_pos by lia. simpl. split; [|reflexivity].
    rewrite iter_shr_m by (rewrite shr_record_of_loc_m; lia).
    rewrite shr_record_of_loc_m. f_equal. f_equal. lia.
Qed.

Lemma shr_fexp_loc mx ex k :
  0 <= mx -> k = fexp prec emax (Zdigits2 mx + ex) - ex -> 0 <= k ->
  loc_of_shr_record (fst (shr_fexp prec emax mx ex loc_Exact)) =
  rem_loc (mx mod 2 ^ k) (2 ^ k).
Proof.
  intros Hm Hk Hk0. unfold shr_fexp. rewrite <- Hk.
  destruct (Z.eq_dec k 0) as [->|Hne].
  - rewrite shr_nonpos by lia. simpl. now rewrite Z.mod_1_r.
  - rewrite shr_pos by lia. simpl fst. simpl shr_record_of_loc.
    rewrite iter_shr_loc by lia. f_equal; f_equal; f_equal; lia.
Qed.

Lemma rne_bounds q l : q <= round_nearest_even q l <= q + 1.
Proof. destruct l as [|[]]; simpl; try lia. destruct (Z.even q); lia. Qed.

(** Shape of a rounded result whatever the location: enough digits in,
    a canonical float out. *)
Lemma bra_shape s mx ex lx :
  0 <= mx -> ex <= fexp prec emax (Zdigits2 mx + ex) ->
  exists n,
    binary_round_aux prec emax s mx ex lx =
      finish prec emax s n (fexp prec emax (Zdigits2 mx + ex)) /\
    n = round_nearest_even
          (mx / 2 ^ (fexp prec emax (Zdigits2 mx + ex) - ex))
          (loc_of_shr_record (fst (shr_fexp prec emax mx ex lx))) /\
    0 <= n <= 2 ^ prec /\
    (emin prec emax < fexp prec emax (Zdigits2 mx + ex) -> 2 ^ (prec - 1) <= n).
Proof using Hprec Hemax.
  intros Hm Hk.
  set (t := fexp prec emax (Zdigits2 mx + ex)) in *.
  destruct (shr_fexp_m mx ex lx (t - ex) Hm eq_refl ltac:(lia)) as [Hq He].
  eexists. split; [|split; [reflexivity|]].
  { rewrite bra_unfold, Hq, He. f_equal. lia. }
  set (k := t - ex) in *.
  assert (Hk2 : 0 < 2 ^ k) by (apply pow2_pos; lia).
  pose proof (Zdigits2_nonneg mx) as Hd0.
  assert (Hdk : Zdigits2 mx <= prec + k)
    by (subst k t; unfold fexp; lia).
  assert (Hq0 : 0 <= mx / 2 ^ k) by (apply Z.div_pos; lia).
  assert (Hq1 : mx / 2 ^ k < 2 ^ prec).
  { apply Z.div_lt_upper_bound; [lia|].
    rewrite <- Z.pow_add_r by lia.
    apply Z.lt_le_trans with (2 ^ Zdigits2 mx).
    - now apply Zdigits2_lt_pow.
    - apply pow2_le; lia. }
  pose proof (rne_bounds (mx / 2 ^ k)
    (loc_of_shr_record (fst (shr_fexp prec emax mx ex lx)))) as Hr.
  split; [lia|].
  intros Hnorm.
  assert (Hmx : 0 < mx).
  { destruct (Z.eq_dec mx 0) as [->|]; [|lia].
    subst t. unfold fexp in *. simpl in *. lia. }
  assert (Ek : k = Zdigits2 mx - prec) by (subst k t; unfold fexp in *; lia).
  apply Z.le_trans with (mx / 2 ^ k); [|lia].
  apply Z.div_le_lower_bound; [lia|].
  rewrite <- Z.pow_add_r by lia.
  replace (k + (prec - 1)) with (Zdigits2 mx - 1) by lia.
  now apply Zdigits2_bounds.
Qed.

Lemma fexp_ge_emin e : emin prec emax <= fexp prec emax e.
Proof. unfold fexp. lia. Qed.

Lemma bra_valid s mx ex lx :
  0 <= mx -> ex <= fexp prec emax (Zdigits2 mx + ex) ->
  valid_binary prec emax (binary_round_aux prec emax s mx ex lx) = true /\
  is_nan (binary_round_aux prec emax s mx ex lx) = false /\
  sign_of (binary_round_aux prec emax s mx ex lx) = s.
Proof using Hprec Hemax HB.
  intros Hm Hk.
  destruct (bra_shape s mx ex lx Hm Hk) as (n & -> & _ & Hn & Hnorm).
  destruct (finish_spec s n _ Hn (fexp_ge_emin _) Hnorm) as (H1 & H2 & H3 & _).
  auto.
Qed.

Lemma bra_exact s mx ex :
  0 <= mx -> ex <= fexp prec emax (Zdigits2 mx + ex) ->
  let t := fexp prec emax (Zdigits2 mx + ex) in
  mag emax B (binary_round_aux prec emax s mx ex loc_Exact) =
  Z.min (rne mx (t - ex) * 2 ^ (t + B)) (2 ^ (emax + B)).
Proof using Hprec Hemax HB.
  intros Hm Hk t.
  destruct (bra_shape s mx ex loc_Exact Hm Hk) as (n & -> & En & Hn & Hnorm).
  destruct (finish_spec s n _ Hn (fexp_ge_emin _) Hnorm) as (_ & _ & _ & ->).
  fold t. rewrite En.
  rewrite (shr_fexp_loc mx ex (t - ex)) by (subst t; lia).
  reflexivity.
Qed.

Lemma fexp_shift d e :
  fexp prec emax (d + e) + B = Z.max (d + (e + B) - prec) (emin prec emax + B).
Proof. unfold fexp. lia. Qed.

Lemma bra_RN s m ex :
  - B <= ex -> ex <= fexp prec emax (Zdigits2 (Zpos m) + ex) ->
  mag emax B (binary_round_aux prec emax s (Zpos m) ex loc_Exact) =
  RN prec emax B (Zpos m * 2 ^ (ex + B)).
Proof using Hprec Hemax HB.
  intros He Hk. rewrite bra_exact by (try lia; assumption).
  unfold RN, rexp. rewrite Zdigits2_mul_pow2 by lia.
  rewrite <- fexp_shift.
  set (t := fexp prec emax (Zdigits2 (Zpos m) + ex)) in *.
  assert (E : rne (Zpos m * 2 ^ (ex + B)) (t + B) = rne (Zpos m) (t - ex)).
  { replace (t + B) with ((t - ex) + (ex + B)) by lia.
    apply rne_scale; lia. }
  rewrite E. reflexivity.
Qed.

(** *** [binary_round] *)

Lemma binary_round_aux_of s m e :
  exists m' e',
    binary_round prec emax s m e =
      binary_round_aux prec emax s (Zpos m') e' loc_Exact /\
    e' <= fexp prec emax (Zdigits2 (Zpos m') + e') /\
    Z.min e (emin prec emax) <= e' /\
    forall C, 0 <= e + C -> 0 <= e' + C ->
              Zpos m' * 2 ^ (e' + C) = Zpos m * 2 ^ (e + C).
Proof using Hprec.
  unfold binary_round.
  set (t := fexp prec emax (Zpos (digits2_pos m) + e)).
  destruct (Z_lt_le_dec t e) as [Hlt|Hge].
  - destruct (shl_align_lt m e t Hlt) as (m' & -> & Hm').
    exists m', t. split; [reflexivity|].
    assert (Hd : Zdigits2 (Zpos m') + t = Zdigits2 (Zpos m) + e).
    { rewrite Hm', Zdigits2_mul_pow2 by lia. lia. }
    split; [|split].
    + rewrite Hd. subst t. simpl. lia.
    + subst t. unfold fexp. lia.
    + intros C H1 H2. rewrite Hm'.
      rewrite <- Z.mul_assoc, <- Z.pow_add_r by lia. f_equal. f_equal. lia.
  - rewrite shl_align_ge by assumption.
    exists m, e. split; [reflexivity|]. split; [|split]; try lia.
    subst t. simpl in *. lia.
Qed.

Lemma binary_round_spec s m e :
  - B <= e ->
  valid_binary prec emax (binary_round prec emax s m e) = true /\
  is_nan (binary_round prec emax s m e) = false /\
  sign_of (binary_round prec emax s m e) = s /\
  mag emax B (binary_round prec emax s m e) =
    RN prec emax B (Zpos m * 2 ^ (e + B)).
Proof using Hprec Hemax HB.
  intros He.
  destruct (binary_round_aux_of s m e) as (m' & e' & -> & Hk & He' & Hv).
  destruct (bra_valid s (Zpos m') e' loc_Exact ltac:(lia) Hk) as (H1 & H2 & H3).
  repeat split; try assumption.
  rewrite bra_RN by (try assumption; lia).
  f_equal. apply Hv; lia.
Qed.

(** *** Rounding is monotone *)

Lemma RN_mono v1 v2 :
  0 <= v1 <= v2 -> RN prec emax B v1 <= RN prec emax B v2.
Proof using Hprec HB.
  intros Hv. unfold RN. apply Z.min_le_compat_r.
  pose proof (Zdigits2_mono v1 v2 Hv) as Hd.
  set (u1 := rexp prec emax B v1). set (u2 := rexp prec emax B v2).
  assert (Hu1 : 0 <= u1) by (subst u1; unfold rexp; lia).
  assert (Hu12 : u1 <= u2) by (subst u1 u2; unfold rexp; lia).
  assert (Hp1 : 0 < 2 ^ u1) by now apply pow2_pos.
  assert (Hp2 : 0 < 2 ^ u2) by (apply pow2_pos; lia).
  destruct (Z.eq_dec u1 u2) as [E|NE].
  - rewrite <- E. apply Z.mul_le_mono_nonneg_r; [lia|].
    now apply rne_mono.
  - assert (Hu2 : u2 = Zdigits2 v2 - prec) by (subst u1 u2; unfold rexp in *; lia).
    assert (Hd12 : Zdigits2 v1 < Zdigits2 v2) by (subst u1 u2; unfold rexp in *; lia).
    pose proof (Zdigits2_nonneg v1) as Hd1.
    assert (Hv2 : 0 < v2).
    { destruct (Z.eq_dec v2 0) as [E0|]; [|lia]. rewrite E0 in Hd12. simpl in Hd12. lia. }
    set (P := 2 ^ (Zdigits2 v2 - 1)).
    apply Z.le_trans with P.
    + (* the smaller value rounds to at most P *)
      assert (HP : P = 2 ^ u1 * 2 ^ (Zdigits2 v2 - 1 - u1)).
      { subst P. rewrite <- Z.pow_add_r by lia. f_equal. lia. }
      assert (Hv1 : v1 < P).
      { apply Z.lt_le_trans with (2 ^ Zdigits2 v1).
        - apply Zdigits2_lt_pow; lia.
        - subst P. apply pow2_le; lia. }
      assert (Hq : v1 / 2 ^ u1 < 2 ^ (Zdigits2 v2 - 1 - u1))
        by (apply Z.div_lt_upper_bound; lia).
      pose proof (rne_range v1 u1) as R1.
      rewrite HP, Z.mul_comm. apply Z.mul_le_mono_nonneg_l; lia.
    + (* the larger value rounds to at least P *)
      assert (HP : P = 2 ^ (prec - 1) * 2 ^ u2).
      { subst P. rewrite <- Z.pow_add_r by lia. f_equal. lia. }
      assert (Hq : 2 ^ (prec - 1) <= v2 / 2 ^ u2).
      { apply Z.div_le_lower_bound; [lia|].
        rewrite Z.mul_comm, <- HP. subst P. now apply Zdigits2_bounds. }
      pose proof (rne_range v2 u2) as R2.
      rewrite HP. apply Z.mul_le_mono_nonneg_r; lia.
Qed.

Lemma RN_0 : RN prec emax B 0 = 0.
Proof using Hprec Hemax HB.
  unfold RN. rewrite rne_exact by apply Zmod_0_l.
  simpl. apply Z.min_l.
  apply Z.lt_le_incl, pow2_pos. unfold emin in *. lia.
Qed.

Lemma RN_nonneg v : 0 <= v -> 0 <= RN prec emax B v.
Proof using Hprec Hemax HB.
  intros H. rewrite <- RN_0. apply RN_mono. lia.
Qed.

Lemma RNs_mono v1 v2 :
  v1 <= v2 -> RNs prec emax B v1 <= RNs prec emax B v2.
Proof using Hprec Hemax HB.
  intros H. unfold RNs.
  destruct (Z.ltb_spec v1 0), (Z.ltb_spec v2 0); try lia.
  - assert (RN prec emax B (- v2) <= RN prec emax B (- v1))
      by (apply RN_mono; lia). lia.
  - pose proof (RN_nonneg (- v1)). pose proof (RN_nonneg v2). lia.
  - apply RN_mono; lia.
Qed.

(** *** Canonical mantissas *)

Lemma bounded_spec m e :
  bounded prec emax m e = true ->
  fexp prec emax (Zdigits2 (Zpos m) + e) = e /\ e <= emax - prec.
Proof.
  unfold bounded, canonical_mantissa. intros H.
  apply andb_prop in H as [H1 H2].
  apply Z.eqb_eq in H1. apply Z.leb_le in H2. now split.
Qed.

Lemma bounded_mag m e :
  bounded prec emax m e = true ->
  0 < Zpos m * 2 ^ (e + B) < 2 ^ (emax + B).
Proof using Hprec HB.
  intros H. apply bounded_spec in H as [H1 H2].
  pose proof (Zdigits2_bounds (Zpos m) ltac:(lia)) as [_ Hd].
  assert (He : emin prec emax <= e) by (rewrite <- H1; apply fexp_ge_emin).
  assert (Hp : 0 < 2 ^ (e + B)) by (apply pow2_pos; lia).
  split; [lia|].
  apply Z.lt_le_trans with (2 ^ Zdigits2 (Zpos m) * 2 ^ (e + B)).
  - apply Z.mul_lt_mono_pos_r; lia.
  - rewrite <- Z.pow_add_r by (simpl; lia).
    apply pow2_le; [simpl; lia|]. unfold fexp in H1. lia.
Qed.

Lemma bounded_lt m1 e1 m2 e2 :
  bounded prec emax m1 e1 = true -> bounded prec emax m2 e2 = true ->
  e1 < e2 -> Zpos m1 * 2 ^ (e1 + B) < Zpos m2 * 2 ^ (e2 + B).
Proof using Hprec HB.
  intros H1 H2 He.
  apply bounded_spec in H1 as [C1 _]. apply bounded_spec in H2 as [C2 _].
  pose proof (Zdigits2_bounds (Zpos m1) ltac:(lia)) as [_ Hd1].
  pose proof (Zdigits2_bounds (Zpos m2) ltac:(lia)) as [Hd2 _].
  assert (He1 : emin prec emax <= e1) by (rewrite <- C1; apply fexp_ge_emin).
  assert (Hp1 : 0 < 2 ^ (e1 + B)) by (apply pow2_pos; lia).
  assert (Hp2 : 0 < 2 ^ (e2 + B)) by (apply pow2_pos; lia).
  assert (Hdd : Zdigits2 (Zpos m1) + e1 <= Zdigits2 (Zpos m2) - 1 + e2)
    by (unfold fexp in *; lia).
  apply Z.lt_le_trans with (2 ^ Zdigits2 (Zpos m1) * 2 ^ (e1 + B)).
  - apply Z.mul_lt_mono_pos_r; lia.
  - apply Z.le_trans with (2 ^ (Zdigits2 (Zpos m2) - 1) * 2 ^ (e2 + B)).
    + rewrite <- !Z.pow_add_r by (simpl; lia). apply pow2_le; simpl in *; lia.
    + apply Z.mul_le_mono_nonneg_r; lia.
Qed.

Lemma RN_canonical m e :
  bounded prec emax m e = true ->
  RN prec emax B (Zpos m * 2 ^ (e + B)) = Zpos m * 2 ^ (e + B).
Proof using Hprec HB.
  intros H. pose proof (bounded_mag m e H) as [Hpos Hcap].
  apply bounded_spec in H as [H1 H2].
  assert (He : emin prec emax <= e) by (rewrite <- H1; apply fexp_ge_emin).
  assert (Hp : 0 < 2 ^ (e + B)) by (apply pow2_pos; lia).
  unfold RN, rexp. rewrite Zdigits2_mul_pow2 by lia.
  rewrite <- fexp_shift, H1.
  rewrite rne_exact by (apply Z.mod_mul; lia).
  rewrite Z.div_mul by lia. apply Z.min_l. lia.
Qed.

(** *** The order of the floats is the order of their readings *)

Lemma cap_pos : 0 < 2 ^ (emax + B).
Proof using Hprec Hemax HB. apply pow2_pos. unfold emin in *. lia. Qed.

Lemma SFcompare_val x y :
  valid_binary prec emax x = true -> valid_binary prec emax y = true ->
  is_nan x = false -> is_nan y = false ->
  SFcompare x y = Some (val emax B x ?= val emax B y).
Proof using Hprec Hemax HB.
  intros Vx Vy Nx Ny. pose proof cap_pos as Hcap.
  destruct x as [sx|sx| |sx mx ex]; try discriminate;
    destruct y as [sy|sy| |sy my ey]; try discriminate;
    cbn [valid_binary] in Vx, Vy;
    try pose proof (bounded_mag _ _ Vx) as Mx;
    try pose proof (bounded_mag _ _ Vy) as My;
    unfold val; cbn [sign_of mag SFcompare].
  1-8: destruct sx, sy; cbn [cond_Zopp]; cmp_solve.
  destruct sx, sy; cbn [cond_Zopp]; try cmp_solve.
  - destruct (Z.compare_spec ex ey) as [E|L|G].
    + subst ey. f_equal. rewrite Z.compare_opp.
      rewrite <- Zmult_compare_compat_r by lia.
      change (Zpos my ?= Zpos mx) with (Pos.compare my mx).
      rewrite (Pos.compare_antisym mx my). reflexivity.
    + pose proof (bounded_lt _ _ _ _ Vx Vy L). cmp_solve.
    + pose proof (bounded_lt _ _ _ _ Vy Vx G). cmp_solve.
  - destruct (Z.compare_spec ex ey) as [E|L|G].
    + subst ey. f_equal.
      rewrite <- Zmult_compare_compat_r by lia. reflexivity.
    + pose proof (bounded_lt _ _ _ _ Vx Vy L). cmp_solve.
    + pose proof (bounded_lt _ _ _ _ Vy Vx G). cmp_solve.
Qed.

Lemma SFltb_val x y :
  valid_binary prec emax x = true -> valid_binary prec emax y = true ->
  is_nan x = false -> is_nan y = false ->
  SFltb x y = (val emax B x <? val emax B y).
Proof using Hprec Hemax HB.
  intros. unfold SFltb, Z.ltb. rewrite SFcompare_val by assumption.
  now destruct (val emax B x ?= val emax B y).
Qed.

Lemma SFleb_val x y :
  valid_binary prec emax x = true -> valid_binary prec emax y = true ->
  is_nan x = false -> is_nan y = false ->
  SFleb x y = (val emax B x <=? val emax B y).
Proof using Hprec Hemax HB.
  intros. unfold SFleb, Z.leb. rewrite SFcompare_val by assumption.
  now destruct (val emax B x ?= val emax B y).
Qed.

(** *** Signed rounding *)

Lemma RNs_opp v : RNs prec emax B (- v) = - RNs prec emax B v.
Proof using Hprec Hemax HB.
  unfold RNs. destruct (Z.ltb_spec (- v) 0), (Z.ltb_spec v 0); try lia.
  - now rewrite Z.opp_involutive.
  - replace v with 0 by lia. change (- 0) with 0. rewrite RN_0. reflexivity.
Qed.

Lemma RNs_0 : RNs prec emax B 0 = 0.
Proof using Hprec Hemax HB. unfold RNs. change (0 <? 0) with false. apply RN_0. Qed.

Lemma RNs_pos v : 0 <= v -> RNs prec emax B v = RN prec emax B v.
Proof. intros H. unfold RNs. destruct (Z.ltb_spec v 0); [lia|reflexivity]. Qed.

Lemma val_round s m e :
  - B <= e ->
  val emax B (binary_round prec emax s m e) =
  RNs prec emax B (cond_Zopp s (Zpos m * 2 ^ (e + B))).
Proof using Hprec Hemax HB.
  intros He.
  destruct (binary_round_spec s m e He) as (_ & _ & Hs & Hm).
  unfold val. rewrite Hs, Hm.
  assert (0 < 2 ^ (e + B)) by (apply pow2_pos; lia).
  destruct s; cbn [cond_Zopp].
  - rewrite RNs_opp, RNs_pos by lia. reflexivity.
  - rewrite RNs_pos by lia. reflexivity.
Qed.

Lemma binary_normalize_spec m e :
  - B <= e ->
  valid_binary prec emax (binary_normalize prec emax m e false) = true /\
  is_nan (binary_normalize prec emax m e false) = false /\
  val emax B (binary_normalize prec emax m e false) =
    RNs prec emax B (m * 2 ^ (e + B)).
Proof using Hprec Hemax HB.
  intros He. destruct m as [|p|p]; cbn [binary_normalize].
  - repeat split. rewrite Z.mul_0_l, RNs_0. reflexivity.
  - destruct (binary_round_spec false p e He) as (H1 & H2 & _ & _).
    repeat split; try assumption. now rewrite val_round.
  - destruct (binary_round_spec true p e He) as (H1 & H2 & _ & _).
    repeat split; try assumption. rewrite val_round by assumption.
    f_equal. cbn [cond_Zopp]. lia.
Qed.

Lemma val_finite_canonical x :
  valid_binary prec emax x = true -> is_finite x = true ->
  RNs prec emax B (val emax B x) = val emax B x.
Proof using Hprec Hemax HB.
  intros V F. destruct x as [s|s| |s m e]; try discriminate.
  - unfold val. cbn [sign_of mag].
    destruct s; cbn [cond_Zopp]; change (- 0) with 0; apply RNs_0.
  - cbn [valid_binary] in V. pose proof (bounded_mag m e V) as Hm.
    unfold val. cbn [sign_of mag].
    destruct s; cbn [cond_Zopp].
    + rewrite RNs_opp, RNs_pos, RN_canonical by (try assumption; lia). reflexivity.
    + rewrite RNs_pos, RN_canonical by (try assumption; lia). reflexivity.
Qed.

Lemma valid_emin s m e :
  valid_binary prec emax (S754_finite s m e) = true -> - B <= e.
Proof using HB.
  cbn [valid_binary]. intros H. apply bounded_spec in H as [H _].
  pose proof (fexp_ge_emin (Zdigits2 (Zpos m) + e)). lia.
Qed.

(** *** Addition and subtraction *)

Lemma val_zero s : val emax B (S754_zero s) = 0.
Proof. now destruct s. Qed.

Lemma aligned_val s m e ez :
  ez <= e -> 0 <= ez + B ->
  cond_Zopp s (Zpos (fst (shl_align m e ez))) * 2 ^ (ez + B) =
  cond_Zopp s (Zpos m * 2 ^ (e + B)).
Proof.
  intros H1 H2. destruct s; cbn [cond_Zopp];
    rewrite ?Z.mul_opp_l, shl_align_val by assumption; reflexivity.
Qed.

Lemma SFadd_spec x y :
  valid_binary prec emax x = true -> valid_binary prec emax y = true ->
  is_finite x = true -> is_finite y = true ->
  valid_binary prec emax (SFadd prec emax x y) = true /\
  is_nan (SFadd prec emax x y) = false /\
  val emax B (SFadd prec emax x y) =
    RNs prec emax B (val emax B x + val emax B y).
Proof using Hprec Hemax HB.
  intros Vx Vy Fx Fy.
  destruct x as [sx|sx| |sx mx ex]; try discriminate;
    destruct y as [sy|sy| |sy my ey]; try discriminate.
  - destruct sx, sy; cbn [SFadd]; repeat split;
      rewrite ?val_zero, ?Z.add_0_l, ?RNs_0; reflexivity.
  - cbn [SFadd]. repeat split; try assumption.
    rewrite val_zero, Z.add_0_l. symmetry. now apply val_finite_canonical.
  - cbn [SFadd]. repeat split; try assumption.
    rewrite val_zero, Z.add_0_r. symmetry. now apply val_finite_canonical.
  - cbn [SFadd]. pose proof (valid_emin _ _ _ Vx). pose proof (valid_emin _ _ _ Vy).
    set (ez := Z.min ex ey).
    destruct (binary_normalize_spec
      (cond_Zopp sx (Zpos (fst (shl_align mx ex ez))) +
       cond_Zopp sy (Zpos (fst (shl_align my ey ez)))) ez ltac:(lia))
      as (H1 & H2 & H3).
    repeat split; try assumption. rewrite H3. f_equal.
    rewrite Z.mul_add_distr_r, !aligned_val by lia. reflexivity.
Qed.

Lemma SFsub_spec x y :
  valid_binary prec emax x = true -> valid_binary prec emax y = true ->
  is_finite x = true -> is_finite y = true ->
  valid_binary prec emax (SFsub prec emax x y) = true /\
  is_nan (SFsub prec emax x y) = false /\
  val emax B (SFsub prec emax x y) =
    RNs prec emax B (val emax B x - val emax B y).
Proof using Hprec Hemax HB.
  intros Vx Vy Fx Fy.
  destruct x as [sx|sx| |sx mx ex]; try discriminate;
    destruct y as [sy|sy| |sy my ey]; try discriminate.
  - destruct sx, sy; cbn [SFsub]; repeat split;
      rewrite ?val_zero, ?Z.sub_0_r, ?RNs_0; reflexivity.
  - cbn [SFsub]. repeat split; try assumption.
    rewrite val_zero, Z.sub_0_l, RNs_opp, val_finite_canonical by assumption.
    unfold val. cbn [sign_of mag]. destruct sy; cbn [negb cond_Zopp]; lia.
  - cbn [SFsub]. repeat split; try assumption.
    rewrite val_zero, Z.sub_0_r. symmetry. now apply val_finite_canonical.
  - cbn [SFsub]. pose proof (valid_emin _ _ _ Vx). pose proof (valid_emin _ _ _ Vy).
    set (ez := Z.min ex ey).
    destruct (binary_normalize_spec
      (cond_Zopp sx (Zpos (fst (shl_align mx ex ez))) -
       cond_Zopp sy (Zpos (fst (shl_align my ey ez)))) ez ltac:(lia))
      as (H1 & H2 & H3).
    repeat split; try assumption. rewrite H3. f_equal.
    rewrite Z.mul_sub_distr_r, !aligned_val by lia. reflexivity.
Qed.

(** *** Division *)

Lemma fexp_mono a b : a <= b -> fexp prec emax a <= fexp prec emax b.
Proof. unfold fexp. lia. Qed.

Lemma mul_enough mx ex my ey :
  bounded prec emax mx ex = true -> bounded prec emax my ey = true ->
  ex + ey <= fexp prec emax (Zdigits2 (Zpos (mx * my)) + (ex + ey)).
Proof using Hprec Hemax.
  intros Bx By.
  apply bounded_spec in Bx as [Cx _]. apply bounded_spec in By as [Cy _].
  pose proof (Zdigits2_bounds (Zpos mx) ltac:(lia)) as [Hx _].
  pose proof (Zdigits2_bounds (Zpos my) ltac:(lia)) as [Hy _].
  assert (Hdx : 1 <= Zdigits2 (Zpos mx)) by (simpl; lia).
  assert (Hdy : 1 <= Zdigits2 (Zpos my)) by (simpl; lia).
  assert (HD : Zdigits2 (Zpos mx) + Zdigits2 (Zpos my) - 2
               < Zdigits2 (Zpos (mx * my))).
  { apply Zdigits2_ge; [lia|]. rewrite Pos2Z.inj_mul.
    replace (Zdigits2 (Zpos mx) + Zdigits2 (Zpos my) - 2)
      with ((Zdigits2 (Zpos mx) - 1) + (Zdigits2 (Zpos my) - 1)) by lia.
    rewrite Z.pow_add_r by lia.
    apply Z.mul_le_mono_nonneg; try lia;
      apply Z.lt_le_incl, pow2_pos; lia. }
  unfold fexp, emin in *. lia.
Qed.

Lemma SFdiv_valid x y :
  valid_binary prec emax x = true -> valid_binary prec emax y = true ->
  is_finite x = true -> is_finite y = true ->
  (forall s, y <> S754_zero s) ->
  valid_binary prec emax (SFdiv prec emax x y) = true /\
  is_nan (SFdiv prec emax x y) = false.
Proof using Hprec Hemax HB.
  intros Vx Vy Fx Fy Hy.
  destruct x as [sx|sx| |sx mx ex]; try discriminate;
    destruct y as [sy|sy| |sy my ey]; try discriminate;
    try (now destruct (Hy sy)); cbn [SFdiv].
  { now split. }
  unfold SFdiv_core_binary.
  set (d1 := Zdigits2 (Zpos mx)). set (d2 := Zdigits2 (Zpos my)).
  set (e' := Z.min (fexp prec emax (d1 + ex - (d2 + ey))) (ex - ey)).
  set (sh := ex - ey - e').
  assert (Hsh : 0 <= sh) by (subst sh e'; lia).
  set (m' := match sh with Zpos _ => Z.shiftl (Zpos mx) sh | 0 => Zpos mx | Zneg _ => 0 end).
  assert (Hm' : m' = Zpos mx * 2 ^ sh).
  { subst m'. destruct sh as [|p|p] eqn:E; try lia.
    now rewrite Z.shiftl_mul_pow2 by lia. }
  clearbody m'.
  pose proof (Z_div_mod m' (Zpos my) ltac:(lia)) as Hdm.
  destruct (Z.div_eucl m' (Zpos my)) as [q r] eqn:Eqr.
  destruct Hdm as [Hdm Hr].
  assert (Hp : 0 < 2 ^ sh) by now apply pow2_pos.
  assert (Hq : 0 <= q) by nia.
  assert (Hk : e' <= fexp prec emax (Zdigits2 q + e')).
  { apply Z.le_trans with (fexp prec emax (d1 + ex - (d2 + ey))); [subst e'; lia|].
    apply fexp_mono.
    pose proof (Zdigits2_nonneg q).
    destruct (Z_lt_le_dec (d1 + sh - d2) 1) as [Hs|Hs]; [subst sh; lia|].
    assert (d1 + sh - d2 - 1 < Zdigits2 q); [|subst sh; lia].
    pose proof (Zdigits2_bounds (Zpos mx) ltac:(lia)) as [Hx _].
    pose proof (Zdigits2_bounds (Zpos my) ltac:(lia)) as [_ Hy2].
    fold d1 in Hx. fold d2 in Hy2.
    assert (Hd2 : 1 <= d2) by (subst d2; simpl; lia).
    assert (Hlow : 2 ^ (d1 + sh - d2 - 1) * 2 ^ d2 <= m').
    { rewrite <- Z.pow_add_r by lia.
      replace (d1 + sh - d2 - 1 + d2) with ((d1 - 1) + sh) by lia.
      rewrite Z.pow_add_r by (subst d1; simpl; lia).
      rewrite Hm'. apply Z.mul_le_mono_nonneg_r; lia. }
    assert (Hpd : 0 < 2 ^ (d1 + sh - d2 - 1)) by (apply pow2_pos; lia).
    assert (Hq1 : 2 ^ (d1 + sh - d2 - 1) <= q) by nia.
    apply Zdigits2_ge; lia. }
  destruct (bra_valid (xorb sx sy) q e' (new_location (Zpos my) r) Hq Hk)
    as (H1 & H2 & _).
  now split.
Qed.

(** *** Values that the format holds exactly *)

Lemma RN_exact_small k c :
  0 <= k < 2 ^ prec -> emin prec emax + B <= c ->
  k * 2 ^ c < 2 ^ (emax + B) ->
  RN prec emax B (k * 2 ^ c) = k * 2 ^ c.
Proof using Hprec Hemax HB.
  intros Hk Hc Hcap.
  destruct (Z.eq_dec k 0) as [->|Hk0]; [rewrite Z.mul_0_l; apply RN_0|].
  assert (Hp : 0 < 2 ^ c) by (apply pow2_pos; lia).
  unfold RN. set (u := rexp prec emax B (k * 2 ^ c)).
  assert (Hu : 0 <= u <= c).
  { subst u. unfold rexp. rewrite Zdigits2_mul_pow2 by lia.
    assert (Zdigits2 k <= prec) by (apply Zdigits2_le; lia). lia. }
  assert (Hpu : 0 < 2 ^ u) by (apply pow2_pos; lia).
  assert (Hm : k * 2 ^ c = k * 2 ^ (c - u) * 2 ^ u).
  { rewrite <- Z.mul_assoc, <- Z.pow_add_r by lia. do 2 f_equal. lia. }
  rewrite rne_exact by (rewrite Hm; apply Z.mod_mul; lia).
  rewrite Hm at 1. rewrite Z.div_mul by lia. rewrite <- Hm.
  apply Z.min_l. lia.
Qed.

Lemma RN_cap v : 2 ^ (emax + B) <= v -> RN prec emax B v = 2 ^ (emax + B).
Proof using Hprec Hemax HB.
  intros Hv. pose proof cap_pos as Hcap.
  assert (Hc : RN prec emax B (2 ^ (emax + B)) = 2 ^ (emax + B)).
  { unfold RN. set (u := rexp prec emax B (2 ^ (emax + B))).
    assert (Hu : 0 <= u <= emax + B).
    { subst u. unfold rexp. rewrite Zdigits2_log2 by lia.
      rewrite Z.log2_pow2 by (unfold emin in *; lia). unfold emin in *. lia. }
    assert (Hpu : 0 < 2 ^ u) by (apply pow2_pos; lia).
    assert (Hm : 2 ^ (emax + B) = 2 ^ (emax + B - u) * 2 ^ u).
    { rewrite <- Z.pow_add_r by lia. f_equal. lia. }
    rewrite rne_exact by (rewrite Hm; apply Z.mod_mul; lia).
    rewrite Hm at 1. rewrite Z.div_mul by lia. rewrite <- Hm.
    apply Z.min_id. }
  apply Z.le_antisymm.
  - unfold RN. apply Z.le_min_r.
  - rewrite <- Hc at 1. apply RN_mono. lia.
Qed.

(** *** Finite floats *)

Lemma val_bound x :
  valid_binary prec emax x = true ->
  - 2 ^ (emax + B) <= val emax B x <= 2 ^ (emax + B).
Proof using Hprec Hemax HB.
  intros V. pose proof cap_pos.
  destruct x as [s|s| |s m e]; unfold val; cbn [sign_of mag];
    try (destruct s; cbn [cond_Zopp]; lia).
  - simpl. lia.
  - cbn [valid_binary] in V. pose proof (bounded_mag _ _ V).
    destruct s; cbn [cond_Zopp]; lia.
Qed.

Lemma finite_of_val x :
  valid_binary prec emax x = true -> is_nan x = false ->
  - 2 ^ (emax + B) < val emax B x < 2 ^ (emax + B) ->
  is_finite x = true.
Proof.
  intros V N H. destruct x as [s|s| |s m e]; try reflexivity; try discriminate.
  unfold val in H. cbn [sign_of mag] in H. destruct s; cbn [cond_Zopp] in H; lia.
Qed.

Lemma val_of_finite x :
  valid_binary prec emax x = true -> is_finite x = true ->
  - 2 ^ (emax + B) < val emax B x < 2 ^ (emax + B).
Proof using Hprec Hemax HB.
  intros V F. pose proof cap_pos.
  destruct x as [s|s| |s m e]; try discriminate.
  - rewrite val_zero. lia.
  - cbn [valid_binary] in V. pose proof (bounded_mag _ _ V).
    unfold val. cbn [sign_of mag]. destruct s; cbn [cond_Zopp]; lia.
Qed.

Lemma val_inj_finite sx mx ex sy my ey :
  bounded prec emax mx ex = true -> bounded prec emax my ey = true ->
  val emax B (S754_finite sx mx ex) = val emax B (S754_finite sy my ey) ->
  S754_finite sx mx ex = S754_finite sy my ey.
Proof using Hprec Hemax HB.
  intros Bx By H.
  pose proof (bounded_mag _ _ Bx) as Mx. pose proof (bounded_mag _ _ By) as My.
  unfold val in H. cbn [sign_of mag] in H.
  assert (Es : sx = sy) by (destruct sx, sy; cbn [cond_Zopp] in H; try reflexivity; lia).
  subst sy.
  assert (Hm : Zpos mx * 2 ^ (ex + B) = Zpos my * 2 ^ (ey + B))
    by (destruct sx; cbn [cond_Zopp] in H; lia).
  assert (Ee : ex = ey).
  { destruct (Z.lt_trichotomy ex ey) as [L|[E|G]]; [|assumption|].
    - pose proof (bounded_lt _ _ _ _ Bx By L). lia.
    - pose proof (bounded_lt _ _ _ _ By Bx G). lia. }
  subst ey.
  assert (Hp : 0 < 2 ^ (ex + B)) by nia.
  apply Z.mul_reg_r in Hm; [|lia]. congruence.
Qed.

(** *** Multiplication

    The product of two scaled readings is scaled twice: [B] has to cover
    twice the smallest exponent. *)

Hypothesis HB2 : 0 <= 2 * emin prec emax + B.

Lemma SFmul_spec x y :
  valid_binary prec emax x = true -> valid_binary prec emax y = true ->
  is_finite x = true -> is_finite y = true ->
  valid_binary prec emax (SFmul prec emax x y) = true /\
  is_nan (SFmul prec emax x y) = false /\
  val emax B (SFmul prec emax x y) =
    RNs prec emax B (val emax B x * val emax B y / 2 ^ B).
Proof using Hprec Hemax HB HB2.
  intros Vx Vy Fx Fy.
  destruct x as [sx|sx| |sx mx ex]; try discriminate;
    destruct y as [sy|sy| |sy my ey]; try discriminate;
    cbn [SFmul].
  1-3: repeat split;
    rewrite ?val_zero, ?Z.mul_0_l, ?Z.mul_0_r, ?Zdiv_0_l, ?RNs_0; reflexivity.
  cbn [valid_binary] in Vx, Vy.
  pose proof (mul_enough _ _ _ _ Vx Vy) as Hk.
  destruct (bra_valid (xorb sx sy) (Zpos (mx * my)) (ex + ey) loc_Exact
              ltac:(lia) Hk) as (H1 & H2 & H3).
  repeat split; try assumption.
  assert (Hex : emin prec emax <= ex)
    by (apply bounded_spec in Vx as [<- _]; apply fexp_ge_emin).
  assert (Hey : emin prec emax <= ey)
    by (apply bounded_spec in Vy as [<- _]; apply fexp_ge_emin).
  assert (HBpos : 0 <= B) by (unfold emin in *; lia).
  assert (HP : 0 < 2 ^ B) by now apply pow2_pos.
  assert (Hv : Zpos mx * 2 ^ (ex + B) * (Zpos my * 2 ^ (ey + B)) =
               Zpos (mx * my) * 2 ^ (ex + ey + B) * 2 ^ B).
  { rewrite Pos2Z.inj_mul.
    replace (ex + ey + B) with ((ex + B) + ey) by lia.
    replace (ey + B) with (ey + B) by lia.
    transitivity (Zpos mx * Zpos my * (2 ^ (ex + B) * 2 ^ (ey + B))); [ring|].
    rewrite <- Z.pow_add_r by lia.
    transitivity (Zpos mx * Zpos my * (2 ^ (ex + B + ey) * 2 ^ B)); [|ring].
    rewrite <- Z.pow_add_r by lia. f_equal. f_equal. lia. }
  assert (Hpos : 0 < Zpos (mx * my) * 2 ^ (ex + ey + B)).
  { apply Z.mul_pos_pos; [lia|]. apply pow2_pos. lia. }
  unfold val at 1. rewrite H3, bra_RN by (try assumption; lia).
  unfold val. cbn [sign_of mag].
  destruct sx, sy; cbn [xorb cond_Zopp];
    rewrite ?Z.mul_opp_l, ?Z.mul_opp_r, ?Z.opp_involutive, Hv;
    rewrite ?Z.div_opp_l_z, Z.div_mul by (try lia; apply Z.mod_mul; lia);
    rewrite ?RNs_opp, RNs_pos by lia; reflexivity.
Qed.

Lemma SFmul_unit u x :
  valid_binary prec emax u = true -> is_finite u = true ->
  val emax B u = 2 ^ B ->
  valid_binary prec emax x = true -> is_finite x = true ->
  SFmul prec emax u x = x \/ exists s s', x = S754_zero s /\ SFmul prec emax u x = S754_zero s'.
Proof using Hprec Hemax HB HB2.
  intros Vu Fu Hu Vx Fx.
  assert (HBpos : 0 <= B) by (unfold emin in *; lia).
  assert (HP : 0 < 2 ^ B) by now apply pow2_pos.
  destruct x as [s|s| |s m e]; try discriminate.
  - right. destruct u as [su|su| |su mu eu]; try discriminate;
      cbn [SFmul]; eauto.
  - left.
    destruct (SFmul_spec u (S754_finite s m e) Vu Vx Fu Fx) as (V & N & Hv).
    rewrite Hu, Z.mul_comm, Z.div_mul in Hv by lia.
    rewrite val_finite_canonical in Hv by assumption.
    pose proof (val_of_finite _ Vx Fx) as Hb. rewrite <- Hv in Hb.
    pose proof (finite_of_val _ V N Hb) as F.
    cbn [valid_binary] in Vx. pose proof (bounded_mag _ _ Vx) as Mx.
    destruct (SFmul prec emax u (S754_finite s m e)) as [s'|s'| |s' m' e'];
      try discriminate.
    + rewrite val_zero in Hv. unfold val in Hv. cbn [sign_of mag] in Hv.
      destruct s; cbn [cond_Zopp] in Hv; lia.
    + now apply val_inj_finite.
Qed.

(** The operations keep a float well formed, whatever its kind. *)

Lemma SFadd_valid x y :
  valid_binary prec emax x = true -> valid_binary prec emax y = true ->
  valid_binary prec emax (SFadd prec emax x y) = true.
Proof using Hprec Hemax HB.
  intros Vx Vy.
  destruct (is_finite x) eqn:Fx; [destruct (is_finite y) eqn:Fy|].
  - now apply SFadd_spec.
  - special_cases x y.
  - special_cases x y.
Qed.

Lemma SFsub_valid x y :
  valid_binary prec emax x = true -> valid_binary prec emax y = true ->
  valid_binary prec emax (SFsub prec emax x y) = true.
Proof using Hprec Hemax HB.
  intros Vx Vy.
  destruct (is_finite x) eqn:Fx; [destruct (is_finite y) eqn:Fy|].
  - now apply SFsub_spec.
  - special_cases x y.
  - special_cases x y.
Qed.

Lemma SFmul_valid x y :
  valid_binary prec emax x = true -> valid_binary prec emax y = true ->
  valid_binary prec emax (SFmul prec emax x y) = true.
Proof using Hprec Hemax HB HB2.
  intros Vx Vy.
  destruct (is_finite x) eqn:Fx; [destruct (is_finite y) eqn:Fy|].
  - now apply SFmul_spec.
  - special_cases x y.
  - special_cases x y.
Qed.

Lemma SFdiv_valid_all x y :
  valid_binary prec emax x = true -> valid_binary prec emax y = true ->
  valid_binary prec emax (SFdiv prec emax x y) = true.
Proof using Hprec Hemax HB.
  intros Vx Vy.
  destruct (is_finite x) eqn:Fx; [destruct (is_finite y) eqn:Fy|].
  - destruct y as [sy|sy| |sy my ey]; try discriminate.
    + destruct x; try discriminate; reflexivity.
    + apply SFdiv_valid; try assumption. discriminate.
  - special_cases x y.
  - special_cases x y.
Qed.

(** Without a NaN or the two exceptional pairs, no NaN comes out. *)
Lemma SFsub_not_nan x y :
  valid_binary prec emax x = true -> valid_binary prec emax y = true ->
  is_finite x = true -> is_nan y = false ->
  is_nan (SFsub prec emax x y) = false.
Proof using Hprec Hemax HB.
  intros Vx Vy Fx Ny. destruct (is_finite y) eqn:Fy.
  - now apply SFsub_spec.
  - special_cases x y.
Qed.

Lemma SFdiv_not_nan x sy my ey :
  valid_binary prec emax x = true ->
  valid_binary prec emax (S754_finite sy my ey) = true ->
  is_nan x = false ->
  is_nan (SFdiv prec emax x (S754_finite sy my ey)) = false.
Proof using Hprec Hemax HB.
  intros Vx Vy Nx. destruct (is_finite x) eqn:Fx.
  - apply SFdiv_valid; try assumption; try reflexivity. discriminate.
  - destruct x; try discriminate; reflexivity.
Qed.
End Format.

(** ** The 256 alpha values

    The alpha of a pixel is one of 256 floats; what the proofs need of
    them is checked on each. *)

Lemma alpha_shape p :
  F32.valid (alpha p) = true /\ is_finite (alpha p) = true /\
  sign_of (alpha p) = false /\ F32.leb (alpha p) (F32.of_Z 1) = true.
Proof. destruct p as [r g b a]. destruct a; vm_compute; auto. Qed.

Lemma safe_a_shape p :
  exists m e, safe_a (alpha p) = S754_finite false m e /\
              bounded 24 128 m e = true.
Proof. destruct p as [r g b a]. destruct a; vm_compute; eauto. Qed.

Lemma one_minus_shape p :
  F32.valid (F32.sub (F32.of_f64 (F64.of_Z 1)) (safe_a (alpha p))) = true /\
  is_finite (F32.sub (F32.of_f64 (F64.of_Z 1)) (safe_a (alpha p))) = true.
Proof. destruct p as [r g b a]. destruct a; vm_compute; auto. Qed.

Lemma mul_one_as_float32 b :
  F32.mul (F32.of_f64 (F64.of_Z 1)) (as_float32 b) = as_float32 b.
Proof. destruct b; vm_compute; reflexivity. Qed.

Lemma mul_zero_as_float32 b :
  F32.mul (S754_zero false) (as_float32 b) = S754_zero false.
Proof. destruct b; vm_compute; reflexivity. Qed.

Lemma add_as_float32_zero b s :
  F32.add (as_float32 b) (S754_zero s) = as_float32 b.
Proof. destruct s; destruct b; vm_compute; reflexivity. Qed.

Lemma astype_add_zero f :
  astype_uint8 (F32.add (S754_zero false) f) = astype_uint8 f.
Proof. destruct f as [[]|[]| |s m e]; reflexivity. Qed.

Lemma one_minus_zero s :
  F32.of_f64 (F64.sub (F64.of_Z 1) (S754_zero s)) = F32.of_f64 (F64.of_Z 1).
Proof. destruct s; vm_compute; reflexivity. Qed.

Lemma one_minus_one :
  F32.of_f64 (F64.sub (F64.of_Z 1) (F64.of_Z 1)) = S754_zero false.
Proof. vm_compute. reflexivity. Qed.

Lemma safe_a_is_max p :
  safe_a (alpha p) = npy_max (alpha p) (F32.of_f64 (F64.dec 1 1000000)).
Proof. destruct p as [r g b a]. destruct a; vm_compute; reflexivity. Qed.

Lemma Z_of_byte_of_Z z : 0 <= z < 256 -> Z_of_byte (byte_of_Z z) = z.
Proof.
  intros H. unfold Z_of_byte, byte_of_Z. rewrite Z.mod_small by lia.
  destruct (Byte.of_N (Z.to_N z)) as [b|] eqn:E.
  - apply Byte.to_of_N in E. rewrite E. lia.
  - apply Byte.of_N_None_iff in E. lia.
Qed.

Lemma Z_of_byte_inj b1 b2 : Z_of_byte b1 = Z_of_byte b2 -> b1 = b2.
Proof.
  unfold Z_of_byte. intros H. apply N2Z.inj in H.
  pose proof (Byte.of_to_N b1) as H1. pose proof (Byte.of_to_N b2) as H2.
  rewrite H in H1. congruence.
Qed.

Lemma eroded_13 p :
  astype_uint8
    (F32.mul (eroded (F64.mul (F64.dec 8 100) (F64.of_Z 13)) (alpha p))
             (F32.of_f64 (F64.of_Z 255))) = x00.
Proof. destruct p as [r g b a]. destruct a; vm_compute; reflexivity. Qed.

Lemma safe_a_is_alpha p : A p <> x00 -> safe_a (alpha p) = alpha p.
Proof.
  destruct p as [r g b a]. cbn [A].
  destruct a; intros H; try (now destruct H); vm_compute; reflexivity.
Qed.

Lemma clip_nan_inv x lo hi :
  is_nan lo = false -> is_nan hi = false ->
  is_nan (clip x lo hi) = true -> is_nan x = true.
Proof.
  intros Hl Hh. unfold clip, npy_min, npy_max.
  destruct (is_nan x) eqn:Nx; [reflexivity|].
  destruct (F32.ltb lo x).
  - rewrite Nx. destruct (F32.ltb x hi); congruence.
  - rewrite Hl. destruct (F32.ltb lo hi); congruence.
Qed.

Lemma mul_zero_finite s f :
  is_finite f = true -> exists s', F32.mul (S754_zero s) f = S754_zero s'.
Proof.
  destruct f as [sf|sf| |sf m e]; try discriminate; intros _;
    cbn; eauto.
Qed.

Lemma erosion_cases n :
  (is_infinity (F64.of_Z n) = false /\
   erosion n = Ok (F64.mul (F64.dec 8 100) (F64.of_Z n))) \/
  (is_infinity (F64.of_Z n) = true /\ erosion n = Raise OverflowError).
Proof. unfold erosion. destruct (is_infinity (F64.of_Z n)); auto. Qed.

Lemma erode_arg_cases n :
  (n <= 0 /\ erode_arg n = Ok None) \/
  (0 < n /\ is_infinity (F64.of_Z n) = false /\
   erode_arg n = Ok (Some (F64.mul (F64.dec 8 100) (F64.of_Z n)))) \/
  (0 < n /\ is_infinity (F64.of_Z n) = true /\
   erode_arg n = Raise OverflowError).
Proof.
  unfold erode_arg. destruct (Z.ltb_spec 0 n) as [H|H]; [|auto].
  destruct (erosion_cases n) as [[H1 ->]|[H1 ->]]; auto.
Qed.


(** ** The two formats of the program *)

Section Scaled.
Variable B : Z.
Hypothesis HB : 2148 <= B.

Local Abbreviation v32 := (val 128 B).
Local Abbreviation v64 := (val 1024 B).
Local Abbreviation R32 := (RNs 24 128 B).
Local Abbreviation R64 := (RNs 53 1024 B).

Lemma HB32 : 0 <= emin 24 128 + B.
Proof using HB. unfold emin. lia. Qed.

Lemma HB32' : 0 <= 2 * emin 24 128 + B.
Proof using HB. unfold emin. lia. Qed.

Lemma HB64 : 0 <= emin 53 1024 + B.
Proof using HB. unfold emin. lia. Qed.

Lemma HB64' : 0 <= 2 * emin 53 1024 + B.
Proof using HB. unfold emin. lia. Qed.

Lemma P24 : 0 < 24. Proof. lia. Qed.
Lemma P53 : 0 < 53. Proof. lia. Qed.
Lemma E128 : 24 < 128. Proof. lia. Qed.
Lemma E1024 : 53 < 1024. Proof. lia. Qed.

Local Abbreviation f32_add_spec := (SFadd_spec 24 128 B P24 E128 HB32).
Local Abbreviation f32_sub_spec := (SFsub_spec 24 128 B P24 E128 HB32).
Local Abbreviation f32_mul_spec := (SFmul_spec 24 128 B P24 E128 HB32 HB32').
Local Abbreviation f32_div_valid := (SFdiv_valid 24 128 B P24 E128 HB32).
Local Abbreviation f32_ltb_val := (SFltb_val 24 128 B P24 E128 HB32).
Local Abbreviation f32_leb_val := (SFleb_val 24 128 B P24 E128 HB32).
Local Abbreviation f32_normalize := (binary_normalize_spec 24 128 B P24 E128 HB32).
Local Abbreviation f32_round := (binary_round_spec 24 128 B P24 E128 HB32).
Local Abbreviation f32_finite_of_val := (finite_of_val 24 128 B).
Local Abbreviation f32_val_of_finite := (val_of_finite 24 128 B P24 E128 HB32).
Local Abbreviation R32_mono := (RNs_mono 24 128 B P24 E128 HB32).
Local Abbreviation R32_0 := (RNs_0 24 128 B P24 E128 HB32).
Local Abbreviation f64_sub_spec := (SFsub_spec 53 1024 B P53 E1024 HB64).
Local Abbreviation f64_mul_spec := (SFmul_spec 53 1024 B P53 E1024 HB64 HB64').
Local Abbreviation f64_leb_val := (SFleb_val 53 1024 B P53 E1024 HB64).
Local Abbreviation f64_normalize := (binary_normalize_spec 53 1024 B P53 E1024 HB64).
Local Abbreviation f64_val_of_finite := (val_of_finite 53 1024 B P53 E1024 HB64).
Local Abbreviation R64_mono := (RNs_mono 53 1024 B P53 E1024 HB64).
Local Abbreviation R64_0 := (RNs_0 53 1024 B P53 E1024 HB64).

Lemma pow2B : 0 < 2 ^ B.
Proof using HB. apply pow2_pos. lia. Qed.

(** Rounding leaves a small multiple of a small power of two alone. *)
Lemma R32_exact k c :
  0 <= k < 2 ^ 24 -> - 149 <= c <= 100 ->
  R32 (k * 2 ^ (c + B)) = k * 2 ^ (c + B).
Proof using HB.
  intros Hk Hc. assert (0 < 2 ^ (c + B)) by (apply pow2_pos; lia).
  rewrite RNs_pos by nia.
  apply (RN_exact_small 24 128 B P24 E128 HB32); [lia|unfold emin; lia|].
  apply Z.lt_le_trans with (2 ^ 24 * 2 ^ (c + B)).
  - apply Z.mul_lt_mono_pos_r; lia.
  - rewrite <- Z.pow_add_r by lia. apply pow2_le; lia.
Qed.

Lemma R64_exact k c :
  0 <= k < 2 ^ 53 -> - 1074 <= c <= 900 ->
  R64 (k * 2 ^ (c + B)) = k * 2 ^ (c + B).
Proof using HB.
  intros Hk Hc. assert (0 < 2 ^ (c + B)) by (apply pow2_pos; lia).
  rewrite RNs_pos by nia.
  apply (RN_exact_small 53 1024 B P53 E1024 HB64); [lia|unfold emin; lia|].
  apply Z.lt_le_trans with (2 ^ 53 * 2 ^ (c + B)).
  - apply Z.mul_lt_mono_pos_r; lia.
  - rewrite <- Z.pow_add_r by lia. apply pow2_le; lia.
Qed.

Lemma R32_nonneg v : 0 <= v -> 0 <= R32 v.
Proof using HB. intros H. rewrite <- R32_0. now apply R32_mono. Qed.

Lemma R64_nonneg v : 0 <= v -> 0 <= R64 v.
Proof using HB. intros H. rewrite <- R64_0. now apply R64_mono. Qed.

(** *** The cast of a Python scalar *)

Lemma of_f64_spec x :
  F64.valid x = true -> is_nan x = false ->
  F32.valid (F32.of_f64 x) = true /\
  is_nan (F32.of_f64 x) = false /\
  v32 (F32.of_f64 x) = R32 (v64 x).
Proof using HB.
  intros V N. destruct x as [s|s| |s m e]; try discriminate; cbn [F32.of_f64].
  - repeat split. rewrite !val_zero, R32_0. reflexivity.
  - repeat split. unfold val. cbn [sign_of mag].
    assert (Hc : 2 ^ (128 + B) <= 2 ^ (1024 + B)) by (apply pow2_le; lia).
    assert (Hp : 0 < 2 ^ (128 + B)) by (apply pow2_pos; lia).
    destruct s; cbn [cond_Zopp].
    + rewrite (RNs_opp 24 128 B P24 E128 HB32), RNs_pos by lia.
      now rewrite (RN_cap 24 128 B P24 E128 HB32).
    + rewrite RNs_pos by lia. now rewrite (RN_cap 24 128 B P24 E128 HB32).
  - pose proof (valid_emin 53 1024 B HB64 s m e V) as He.
    destruct (f32_round s m e He) as (H1 & H2 & _ & _).
    repeat split; try assumption.
    now rewrite (val_round 24 128 B P24 E128 HB32).
Qed.

Lemma of_f64_mono x y :
  F64.valid x = true -> F64.valid y = true ->
  SFleb x y = true -> SFleb (F32.of_f64 x) (F32.of_f64 y) = true.
Proof using HB.
  intros Vx Vy H.
  assert (Nx : is_nan x = false) by (now destruct x).
  assert (Ny : is_nan y = false) by (destruct x, y; try reflexivity; discriminate).
  destruct (of_f64_spec x Vx Nx) as (V1 & N1 & E1).
  destruct (of_f64_spec y Vy Ny) as (V2 & N2 & E2).
  rewrite f64_leb_val in H by assumption.
  rewrite f32_leb_val by assumption.
  apply Z.leb_le. apply Z.leb_le in H. rewrite E1, E2. now apply R32_mono.
Qed.

(** *** [np.clip] *)

Lemma npy_max_spec x lo :
  F32.valid x = true -> F32.valid lo = true ->
  is_nan x = false -> is_nan lo = false ->
  F32.valid (npy_max x lo) = true /\ is_nan (npy_max x lo) = false /\
  v32 (npy_max x lo) = Z.max (v32 x) (v32 lo).
Proof using HB.
  intros Vx Vl Nx Nl. unfold npy_max. rewrite Nx.
  unfold F32.ltb. rewrite f32_ltb_val by assumption.
  destruct (Z.ltb_spec (v32 lo) (v32 x)); repeat split; try assumption; lia.
Qed.

Lemma npy_min_spec x hi :
  F32.valid x = true -> F32.valid hi = true ->
  is_nan x = false -> is_nan hi = false ->
  F32.valid (npy_min x hi) = true /\ is_nan (npy_min x hi) = false /\
  v32 (npy_min x hi) = Z.min (v32 x) (v32 hi).
Proof using HB.
  intros Vx Vh Nx Nh. unfold npy_min. rewrite Nx.
  unfold F32.ltb. rewrite f32_ltb_val by assumption.
  destruct (Z.ltb_spec (v32 x) (v32 hi)); repeat split; try assumption; lia.
Qed.

Lemma clip_spec x lo hi :
  F32.valid x = true -> F32.valid lo = true -> F32.valid hi = true ->
  is_nan x = false -> is_nan lo = false -> is_nan hi = false ->
  F32.valid (clip x lo hi) = true /\ is_nan (clip x lo hi) = false /\
  v32 (clip x lo hi) = Z.min (Z.max (v32 x) (v32 lo)) (v32 hi).
Proof using HB.
  intros Vx Vl Vh Nx Nl Nh. unfold clip.
  destruct (npy_max_spec x lo Vx Vl Nx Nl) as (V1 & N1 & E1).
  destruct (npy_min_spec _ hi V1 Vh N1 Nh) as (V2 & N2 & E2).
  repeat split; try assumption. now rewrite E2, E1.
Qed.

(** *** Small integers *)

Lemma f32_of_Z_spec n :
  0 <= n < 2 ^ 24 ->
  F32.valid (F32.of_Z n) = true /\ is_finite (F32.of_Z n) = true /\
  v32 (F32.of_Z n) = n * 2 ^ B.
Proof using HB.
  intros Hn. unfold F32.of_Z, F32.valid, F32.prec, F32.emax.
  destruct (f32_normalize n 0 ltac:(lia)) as (V & N & E).
  rewrite (R32_exact n 0) in E by lia. rewrite Z.add_0_l in E.
  repeat split; try assumption.
  apply f32_finite_of_val; try assumption. rewrite E.
  pose proof pow2B.
  assert (2 ^ 24 * 2 ^ B <= 2 ^ (128 + B))
    by (rewrite <- Z.pow_add_r by lia; apply pow2_le; lia).
  assert (n * 2 ^ B < 2 ^ 24 * 2 ^ B) by (apply Z.mul_lt_mono_pos_r; lia).
  assert (0 <= n * 2 ^ B) by nia.
  lia.
Qed.

Lemma Z_of_byte_range b : 0 <= Z_of_byte b < 256.
Proof. destruct b; vm_compute; split; discriminate || reflexivity. Qed.

Lemma as_float32_spec b :
  F32.valid (as_float32 b) = true /\ is_finite (as_float32 b) = true /\
  v32 (as_float32 b) = Z_of_byte b * 2 ^ B.
Proof using HB.
  apply f32_of_Z_spec. pose proof (Z_of_byte_range b).
  change (2 ^ 24) with 16777216. lia.
Qed.

Lemma of_f64_valid x : F64.valid x = true -> F32.valid (F32.of_f64 x) = true.
Proof using HB.
  intros V. destruct (is_nan x) eqn:N.
  - destruct x; try discriminate. reflexivity.
  - now apply of_f64_spec.
Qed.

(** *** The unmixed foreground *)

Lemma unmix_valid bg32 p b :
  F32.valid bg32 = true ->
  F32.valid (unmix bg32 (alpha p) (as_float32 b)) = true.
Proof using HB.
  intros Vb. unfold unmix.
  destruct (safe_a_shape p) as (m & e & -> & Hs).
  destruct (as_float32_spec b) as (Vc & _ & _).
  apply (SFdiv_valid_all 24 128 B P24 E128 HB32); [|exact Hs].
  apply (SFsub_valid 24 128 B P24 E128 HB32); [exact Vc|].
  apply (SFmul_valid 24 128 B P24 E128 HB32 HB32'); [exact Vb|].
  apply (SFsub_valid 24 128 B P24 E128 HB32); reflexivity || exact Hs.
Qed.

Lemma unmix_not_nan bg32 p b :
  F32.valid bg32 = true -> is_finite bg32 = true ->
  is_nan (unmix bg32 (alpha p) (as_float32 b)) = false.
Proof using HB.
  intros Vb Fb. unfold unmix.
  destruct (one_minus_shape p) as (Vo & Fo).
  destruct (safe_a_shape p) as (m & e & E & Hs). rewrite E in *.
  destruct (as_float32_spec b) as (Vc & Fc & _).
  destruct (f32_mul_spec bg32 _ Vb Vo Fb Fo) as (Vm & Nm & _).
  apply (SFdiv_not_nan 24 128 B P24 E128 HB32); [|exact Hs|].
  - apply (SFsub_valid 24 128 B P24 E128 HB32); assumption.
  - apply (SFsub_not_nan 24 128 B P24 E128 HB32); assumption.
Qed.

Lemma fg_spec cfg p b :
  F64.valid (bg cfg) = true ->
  F32.valid (fg cfg (alpha p) (as_float32 b)) = true /\
  (is_nan (fg cfg (alpha p) (as_float32 b)) = true \/
   (is_nan (fg cfg (alpha p) (as_float32 b)) = false /\
    is_finite (fg cfg (alpha p) (as_float32 b)) = true /\
    0 <= v32 (fg cfg (alpha p) (as_float32 b)) <= 255 * 2 ^ B)).
Proof using HB.
  intros Vbg. unfold fg.
  pose proof (unmix_valid _ p b (of_f64_valid _ Vbg)) as Vu.
  remember (unmix (F32.of_f64 (bg cfg)) (alpha p) (as_float32 b)) as u eqn:Eu.
  clear Eu.
  destruct (f32_of_Z_spec 0 ltac:(lia)) as (V0 & F0 & E0).
  destruct (f32_of_Z_spec 255 ltac:(lia)) as (V255 & F255 & E255).
  destruct (is_nan u) eqn:Nu.
  - destruct u; try discriminate. split; [reflexivity|now left].
  - destruct (clip_spec u _ _ Vu V0 V255 Nu) as (Vc & Nc & Ec);
      try (now destruct (F32.of_Z 0)); try (now destruct (F32.of_Z 255)).
    split; [exact Vc|right]. split; [exact Nc|].
    rewrite E0, E255 in Ec. pose proof pow2B as HP.
    assert (Hr : 0 <= v32 (clip u (F32.of_Z 0) (F32.of_Z 255)) <= 255 * 2 ^ B)
      by (rewrite Ec; lia).
    split; [|exact Hr].
    apply f32_finite_of_val; try assumption.
    assert (255 * 2 ^ B < 2 ^ (128 + B)).
    { apply Z.lt_le_trans with (2 ^ 8 * 2 ^ B); [lia|].
      rewrite <- Z.pow_add_r by lia. apply pow2_le; lia. }
    lia.
Qed.

Lemma fg_finite cfg p b :
  F64.valid (bg cfg) = true -> is_finite (F32.of_f64 (bg cfg)) = true ->
  F32.valid (fg cfg (alpha p) (as_float32 b)) = true /\
  is_finite (fg cfg (alpha p) (as_float32 b)) = true /\
  0 <= v32 (fg cfg (alpha p) (as_float32 b)) <= 255 * 2 ^ B.
Proof using HB.
  intros Vbg Fbg. destruct (fg_spec cfg p b Vbg) as (V & [N|(N & F & H)]).
  - exfalso. unfold fg in N.
    pose proof (unmix_not_nan _ p b (of_f64_valid _ Vbg) Fbg) as Nu.
    apply clip_nan_inv in N; [congruence|reflexivity|reflexivity].
  - auto.
Qed.

(** *** The edge band *)

Lemma edge_empty cfg p :
  F64.valid (a_low cfg) = true -> F64.valid (a_high cfg) = true ->
  SFleb (a_high cfg) (a_low cfg) = true ->
  edge cfg (alpha p) = false.
Proof using HB.
  intros Vl Vh H.
  assert (Nh : is_nan (a_high cfg) = false) by (now destruct (a_high cfg)).
  assert (Nl : is_nan (a_low cfg) = false)
    by (destruct (a_high cfg), (a_low cfg); try reflexivity; discriminate).
  pose proof (of_f64_mono _ _ Vh Vl H) as H'.
  destruct (of_f64_spec _ Vl Nl) as (V1 & N1 & _).
  destruct (of_f64_spec _ Vh Nh) as (V2 & N2 & _).
  destruct (alpha_shape p) as (Va & Fa & _ & _).
  assert (Na : is_nan (alpha p) = false) by (now destruct (alpha p)).
  rewrite f32_leb_val in H' by assumption.
  unfold edge, F32.ltb. rewrite !f32_ltb_val by assumption.
  apply Z.leb_le in H'.
  destruct (Z.ltb_spec (v32 (F32.of_f64 (a_low cfg))) (v32 (alpha p)));
    destruct (Z.ltb_spec (v32 (alpha p)) (v32 (F32.of_f64 (a_high cfg))));
    try reflexivity; lia.
Qed.

(** *** The blend at its two ends *)

Lemma rgb_new_strength_zero cfg p b s :
  strength cfg = S754_zero s ->
  F64.valid (bg cfg) = true -> is_finite (F32.of_f64 (bg cfg)) = true ->
  rgb_new cfg (alpha p) b = as_float32 b.
Proof using HB.
  intros Hs Vbg Fbg. unfold rgb_new.
  destruct (edge cfg (alpha p)); [|reflexivity].
  unfold blend. rewrite Hs, one_minus_zero, mul_one_as_float32.
  destruct (fg_finite cfg p b Vbg Fbg) as (_ & F & _).
  cbn [F32.of_f64].
  destruct (mul_zero_finite s _ F) as (s' & ->).
  apply add_as_float32_zero.
Qed.

Lemma val_one : v32 (F32.of_f64 (F64.of_Z 1)) = 2 ^ B.
Proof using HB.
  change (F32.of_f64 (F64.of_Z 1)) with (S754_finite false 8388608 (-23)).
  unfold val. cbn [sign_of mag cond_Zopp].
  change (Zpos 8388608) with (2 ^ 23).
  rewrite <- Z.pow_add_r by lia. f_equal. lia.
Qed.

Lemma astype_mul_one f :
  F32.valid f = true ->
  astype_uint8 (F32.mul (F32.of_f64 (F64.of_Z 1)) f) = astype_uint8 f.
Proof using HB.
  intros V. destruct (is_finite f) eqn:F.
  - destruct (SFmul_unit 24 128 B P24 E128 HB32 HB32'
                (F32.of_f64 (F64.of_Z 1)) f eq_refl eq_refl val_one V F)
      as [E|(s & s' & -> & E)]; unfold F32.mul, F32.prec, F32.emax;
      rewrite E; reflexivity.
  - destruct f as [|[]| |]; try discriminate; reflexivity.
Qed.

Lemma rgb_new_strength_one cfg p b :
  strength cfg = F64.of_Z 1 -> F64.valid (bg cfg) = true ->
  edge cfg (alpha p) = true ->
  astype_uint8 (rgb_new cfg (alpha p) b) =
  astype_uint8 (fg cfg (alpha p) (as_float32 b)).
Proof using HB.
  intros Hs Vbg He. unfold rgb_new. rewrite He.
  unfold blend. rewrite Hs, one_minus_one, mul_zero_as_float32.
  rewrite astype_add_zero. apply astype_mul_one.
  now apply fg_spec.
Qed.

(** A background in the range of the specification is a finite
    [float32]. *)
Lemma bg_in_range_finite x :
  F64.valid x = true ->
  SFleb (F64.of_Z 0) x = true -> SFleb x (F64.of_Z 255) = true ->
  is_finite (F32.of_f64 x) = true.
Proof using HB.
  intros V H0 H255.
  assert (N : is_nan x = false) by (now destruct x).
  destruct (of_f64_spec x V N) as (V' & N' & E).
  rewrite f64_leb_val in H0, H255 by (assumption || reflexivity).
  apply Z.leb_le in H0. apply Z.leb_le in H255.
  assert (E0 : v64 (F64.of_Z 0) = 0) by reflexivity.
  assert (E255 : v64 (F64.of_Z 255) = 255 * 2 ^ B).
  { change (F64.of_Z 255) with (S754_finite false 8972014882652160 (-45)).
    unfold val. cbn [sign_of mag cond_Zopp].
    change (Zpos 8972014882652160) with (255 * 2 ^ 45).
    rewrite <- Z.mul_assoc, <- Z.pow_add_r by lia. do 2 f_equal. lia. }
  rewrite E0 in H0. rewrite E255 in H255.
  pose proof pow2B as HP.
  assert (Hlo : 0 <= R32 (v64 x)) by now apply R32_nonneg.
  assert (Hhi : R32 (v64 x) <= 255 * 2 ^ B).
  { pose proof (R32_exact 255 0 ltac:(lia) ltac:(lia)) as Q.
    rewrite Z.add_0_l in Q. rewrite <- Q. now apply R32_mono. }
  apply f32_finite_of_val; try assumption. rewrite E.
  assert (255 * 2 ^ B < 2 ^ (128 + B)).
  { apply Z.lt_le_trans with (2 ^ 8 * 2 ^ B); [lia|].
    rewrite <- Z.pow_add_r by lia. apply pow2_le; lia. }
  lia.
Qed.

(** *** The cast to 8 bits *)

Lemma trunc_val x :
  F32.valid x = true -> is_finite x = true -> 0 <= v32 x ->
  trunc x = Some (v32 x / 2 ^ B).
Proof using HB.
  intros V F H. pose proof pow2B as HP.
  destruct x as [s|s| |s m e]; try discriminate.
  - rewrite val_zero. reflexivity.
  - pose proof (valid_emin 24 128 B HB32 s m e V) as He.
    assert (Hp : 0 < 2 ^ (e + B)) by (apply pow2_pos; lia).
    unfold val in *. cbn [sign_of mag] in *.
    destruct s; cbn [cond_Zopp] in *; [nia|].
    cbn [trunc cond_Zopp]. f_equal.
    destruct (Z_le_gt_dec 0 e).
    + rewrite Z.shiftl_mul_pow2 by lia. rewrite Z.pow_add_r by lia.
      rewrite Z.mul_assoc, Z.div_mul by lia. reflexivity.
    + rewrite Z.shiftl_div_pow2 by lia.
      replace (2 ^ B) with (2 ^ (- e) * 2 ^ (e + B))
        by (rewrite <- Z.pow_add_r by lia; f_equal; lia).
      rewrite Z.div_mul_cancel_r by lia. reflexivity.
Qed.

Lemma astype_val x :
  F32.valid x = true -> is_finite x = true ->
  0 <= v32 x < 256 * 2 ^ B ->
  Z_of_byte (astype_uint8 x) = v32 x / 2 ^ B.
Proof using HB.
  intros V F H. pose proof pow2B as HP.
  unfold astype_uint8. rewrite (trunc_val x) by (try assumption; lia).
  assert (Hz : 0 <= v32 x / 2 ^ B < 256).
  { split; [apply Z.div_pos; lia|apply Z.div_lt_upper_bound; lia]. }
  destruct (Z.ltb_spec (- 2 ^ 31) (v32 x / 2 ^ B));
    destruct (Z.ltb_spec (v32 x / 2 ^ B) (2 ^ 31)); cbn [andb]; try lia.
  now apply Z_of_byte_of_Z.
Qed.

(** *** The erosion of alpha *)

Lemma val_dec_8_100 : 0 <= v64 (F64.dec 8 100).
Proof.
  change (F64.dec 8 100) with (S754_finite false 5764607523034235 (-56)).
  unfold val. cbn [sign_of mag cond_Zopp].
  apply Z.mul_nonneg_nonneg; [lia|]. apply Z.pow_nonneg. lia.
Qed.

Lemma f64_of_Z_spec n :
  is_infinity (F64.of_Z n) = false ->
  F64.valid (F64.of_Z n) = true /\ is_finite (F64.of_Z n) = true /\
  v64 (F64.of_Z n) = R64 (n * 2 ^ B).
Proof using HB.
  intros H. unfold F64.of_Z, F64.valid, F64.prec, F64.emax in *.
  destruct (f64_normalize n 0 ltac:(lia)) as (V & N & E).
  rewrite Z.add_0_l in E. repeat split; try assumption.
  destruct (binary_normalize 53 1024 n 0 false); try discriminate; reflexivity.
Qed.

Lemma delta_spec n :
  is_infinity (F64.of_Z n) = false ->
  F64.valid (F64.mul (F64.dec 8 100) (F64.of_Z n)) = true /\
  is_nan (F64.mul (F64.dec 8 100) (F64.of_Z n)) = false /\
  v64 (F64.mul (F64.dec 8 100) (F64.of_Z n)) =
    R64 (v64 (F64.dec 8 100) * R64 (n * 2 ^ B) / 2 ^ B).
Proof using HB.
  intros H. destruct (f64_of_Z_spec n H) as (V & F & E).
  destruct (f64_mul_spec (F64.dec 8 100) (F64.of_Z n) eq_refl V eq_refl F)
    as (V' & N' & E').
  repeat split; try assumption. unfold F64.mul, F64.prec, F64.emax.
  rewrite E', E. reflexivity.
Qed.

Lemma delta_mono n1 n2 :
  n1 <= n2 ->
  is_infinity (F64.of_Z n1) = false -> is_infinity (F64.of_Z n2) = false ->
  v64 (F64.mul (F64.dec 8 100) (F64.of_Z n1)) <=
  v64 (F64.mul (F64.dec 8 100) (F64.of_Z n2)).
Proof using HB.
  intros Hn H1 H2. pose proof pow2B as HP. pose proof val_dec_8_100 as Hc.
  destruct (delta_spec n1 H1) as (_ & _ & ->).
  destruct (delta_spec n2 H2) as (_ & _ & ->).
  apply R64_mono. apply Z.div_le_mono; [lia|].
  apply Z.mul_le_mono_nonneg_l; [assumption|].
  apply R64_mono. apply Z.mul_le_mono_nonneg_r; lia.
Qed.

Lemma delta_nonneg n :
  0 <= n -> is_infinity (F64.of_Z n) = false ->
  0 <= v64 (F64.mul (F64.dec 8 100) (F64.of_Z n)).
Proof using HB.
  intros Hn H. pose proof pow2B as HP. pose proof val_dec_8_100 as Hc.
  destruct (delta_spec n H) as (_ & _ & ->).
  apply R64_nonneg. apply Z.div_pos; [|lia].
  apply Z.mul_nonneg_nonneg; [assumption|]. apply R64_nonneg. nia.
Qed.

Lemma sub_antitone a x y :
  F32.valid a = true -> is_finite a = true ->
  F32.valid x = true -> F32.valid y = true ->
  is_nan x = false -> is_nan y = false ->
  v32 x <= v32 y ->
  F32.valid (F32.sub a y) = true /\ is_nan (F32.sub a y) = false /\
  v32 (F32.sub a y) <= v32 (F32.sub a x).
Proof using HB.
  intros Va Fa Vx Vy Nx Ny H.
  assert (V1 : F32.valid (F32.sub a y) = true)
    by exact (SFsub_valid 24 128 B P24 E128 HB32 a y Va Vy).
  assert (V2 : F32.valid (F32.sub a x) = true)
    by exact (SFsub_valid 24 128 B P24 E128 HB32 a x Va Vx).
  assert (N1 : is_nan (F32.sub a y) = false)
    by exact (SFsub_not_nan 24 128 B P24 E128 HB32 a y Va Vy Fa Ny).
  repeat split; try assumption.
  assert (B1 : - 2 ^ (128 + B) <= v32 (F32.sub a y) <= 2 ^ (128 + B))
    by exact (val_bound 24 128 B P24 E128 HB32 _ V1).
  assert (B2 : - 2 ^ (128 + B) <= v32 (F32.sub a x) <= 2 ^ (128 + B))
    by exact (val_bound 24 128 B P24 E128 HB32 _ V2).
  pose proof (cap_pos 24 128 B P24 E128 HB32) as Hcap.
  assert (Einf : forall s, v32 (S754_infinity s) = cond_Zopp s (2 ^ (128 + B)))
    by reflexivity.
  destruct (is_finite x) eqn:Fx; destruct (is_finite y) eqn:Fy.
  - destruct (f32_sub_spec a x Va Vx Fa Fx) as (_ & _ & Ex).
    destruct (f32_sub_spec a y Va Vy Fa Fy) as (_ & _ & Ey).
    unfold F32.sub, F32.prec, F32.emax. rewrite Ex, Ey.
    apply R32_mono. lia.
  - (* y infinite: above x it is +oo, and the difference is -oo *)
    pose proof (f32_val_of_finite x Vx Fx) as Bx.
    destruct y as [|[]| |]; try discriminate;
      rewrite Einf in H; cbn [cond_Zopp] in H; [lia|].
    replace (F32.sub a (S754_infinity false)) with (S754_infinity true)
      by (destruct a; try discriminate; reflexivity).
    rewrite Einf. cbn [cond_Zopp]. lia.
  - (* x infinite: below y it is -oo, and the difference is +oo *)
    pose proof (f32_val_of_finite y Vy Fy) as By.
    destruct x as [|[]| |]; try discriminate;
      rewrite Einf in H; cbn [cond_Zopp] in H; [|lia].
    replace (F32.sub a (S754_infinity true)) with (S754_infinity false)
      by (destruct a; try discriminate; reflexivity).
    rewrite Einf. cbn [cond_Zopp]. lia.
  - assert (Et : F32.sub a (S754_infinity true) = S754_infinity false)
      by (destruct a; try discriminate; reflexivity).
    assert (Ef : F32.sub a (S754_infinity false) = S754_infinity true)
      by (destruct a; try discriminate; reflexivity).
    destruct x as [|[]| |], y as [|[]| |]; try discriminate;
      rewrite !Einf in H; cbn [cond_Zopp] in H; try lia;
      rewrite ?Et, ?Ef, !Einf; cbn [cond_Zopp]; lia.
Qed.

Lemma mag_nonneg emax x : 0 <= mag emax B x.
Proof.
  destruct x; cbn [mag];
    first [lia | apply Z.pow_nonneg; lia
          | apply Z.mul_nonneg_nonneg; [lia|apply Z.pow_nonneg; lia]].
Qed.

Lemma cap32_big : 256 * 2 ^ B < 2 ^ (128 + B).
Proof using HB.
  change 256 with (2 ^ 8). rewrite <- Z.pow_add_r by lia.
  apply pow2_lt; lia.
Qed.

Lemma alpha_val p : 0 <= v32 (alpha p) <= 2 ^ B.
Proof using HB.
  destruct (alpha_shape p) as (V & F & S & L).
  assert (N : is_nan (alpha p) = false) by (now destruct (alpha p)).
  destruct (f32_of_Z_spec 1 ltac:(lia)) as (V1 & F1 & E1).
  unfold F32.leb in L. rewrite f32_leb_val in L
    by (try assumption; now destruct (F32.of_Z 1)).
  apply Z.leb_le in L. rewrite E1 in L. split; [|lia].
  unfold val. rewrite S. cbn [cond_Zopp]. apply mag_nonneg.
Qed.

Lemma eroded_spec d a :
  F32.valid a = true -> is_finite a = true ->
  F64.valid d = true -> is_nan d = false ->
  F32.valid (eroded d a) = true /\ is_finite (eroded d a) = true /\
  v32 (eroded d a) =
    Z.min (Z.max (v32 (F32.sub a (F32.of_f64 d))) 0) (2 ^ B).
Proof using HB.
  intros Va Fa Vd Nd. destruct (of_f64_spec d Vd Nd) as (V & N & _).
  destruct (sub_antitone a _ _ Va Fa V V N N (Z.le_refl _)) as (Vs & Ns & _).
  destruct (f32_of_Z_spec 0 ltac:(lia)) as (V0 & F0 & E0).
  destruct (f32_of_Z_spec 1 ltac:(lia)) as (V1 & F1 & E1).
  unfold eroded.
  destruct (clip_spec _ (F32.of_Z 0) (F32.of_Z 1) Vs V0 V1 Ns)
    as (Vc & Nc & Ec); try reflexivity.
  rewrite E0, E1, Z.mul_0_l, Z.mul_1_l in Ec.
  pose proof pow2B. pose proof cap32_big.
  repeat split; try assumption.
  apply f32_finite_of_val; try assumption. rewrite Ec. lia.
Qed.

Lemma eroded_mono d1 d2 a :
  F32.valid a = true -> is_finite a = true ->
  F64.valid d1 = true -> is_nan d1 = false ->
  F64.valid d2 = true -> is_nan d2 = false ->
  v64 d1 <= v64 d2 ->
  v32 (eroded d2 a) <= v32 (eroded d1 a).
Proof using HB.
  intros Va Fa V1 N1 V2 N2 H.
  destruct (of_f64_spec d1 V1 N1) as (W1 & M1 & E1).
  destruct (of_f64_spec d2 V2 N2) as (W2 & M2 & E2).
  assert (H' : v32 (F32.of_f64 d1) <= v32 (F32.of_f64 d2))
    by (rewrite E1, E2; now apply R32_mono).
  destruct (sub_antitone a _ _ Va Fa W1 W2 M1 M2 H') as (_ & _ & Hs).
  destruct (eroded_spec d1 a Va Fa V1 N1) as (_ & _ & ->).
  destruct (eroded_spec d2 a Va Fa V2 N2) as (_ & _ & ->).
  lia.
Qed.

Lemma eroded_le d a :
  F32.valid a = true -> is_finite a = true ->
  F64.valid d = true -> is_nan d = false ->
  0 <= v64 d -> 0 <= v32 a <= 2 ^ B ->
  0 <= v32 (eroded d a) <= v32 a.
Proof using HB.
  intros Va Fa Vd Nd Hd Ha.
  destruct (of_f64_spec d Vd Nd) as (W & M & E).
  assert (H0 : v32 (S754_zero false) <= v32 (F32.of_f64 d))
    by (rewrite E, val_zero; now apply R32_nonneg).
  destruct (sub_antitone a (S754_zero false) _ Va Fa eq_refl W eq_refl M H0)
    as (_ & _ & Hs).
  destruct (f32_sub_spec a (S754_zero false) Va eq_refl Fa eq_refl)
    as (_ & _ & Ez).
  rewrite val_zero, Z.sub_0_r in Ez.
  rewrite (val_finite_canonical 24 128 B P24 E128 HB32) in Ez by assumption.
  unfold F32.sub, F32.prec, F32.emax in Hs. rewrite Ez in Hs.
  destruct (eroded_spec d a Va Fa Vd Nd) as (_ & _ & ->).
  unfold F32.sub, F32.prec, F32.emax. lia.
Qed.

Lemma scale255 x :
  F32.valid x = true -> is_finite x = true -> 0 <= v32 x <= 2 ^ B ->
  F32.valid (F32.mul x (F32.of_f64 (F64.of_Z 255))) = true /\
  is_finite (F32.mul x (F32.of_f64 (F64.of_Z 255))) = true /\
  v32 (F32.mul x (F32.of_f64 (F64.of_Z 255))) = R32 (v32 x * 255) /\
  0 <= v32 (F32.mul x (F32.of_f64 (F64.of_Z 255))) <= 255 * 2 ^ B.
Proof using HB.
  intros V F H. pose proof pow2B as HP. pose proof cap32_big.
  change (F32.of_f64 (F64.of_Z 255)) with (F32.of_Z 255).
  destruct (f32_of_Z_spec 255 ltac:(lia)) as (V' & F' & E').
  destruct (f32_mul_spec x (F32.of_Z 255) V V' F F') as (Vm & Nm & Em).
  rewrite E', Z.mul_assoc, Z.div_mul in Em by lia.
  assert (Hr : 0 <= R32 (v32 x * 255) <= 255 * 2 ^ B).
  { split; [apply R32_nonneg; lia|].
    pose proof (R32_exact 255 0 ltac:(lia) ltac:(lia)) as Q.
    rewrite Z.add_0_l in Q. rewrite <- Q. apply R32_mono. lia. }
  unfold F32.mul, F32.prec, F32.emax.
  repeat split; try assumption; try (rewrite Em; lia).
  apply f32_finite_of_val; try assumption. rewrite Em. lia.
Qed.

Lemma out_alpha_le x1 x2 :
  F32.valid x1 = true -> is_finite x1 = true -> 0 <= v32 x1 <= 2 ^ B ->
  F32.valid x2 = true -> is_finite x2 = true -> 0 <= v32 x2 <= 2 ^ B ->
  v32 x2 <= v32 x1 ->
  Z_of_byte (astype_uint8 (F32.mul x2 (F32.of_f64 (F64.of_Z 255)))) <=
  Z_of_byte (astype_uint8 (F32.mul x1 (F32.of_f64 (F64.of_Z 255)))).
Proof using HB.
  intros V1 F1 H1 V2 F2 H2 H. pose proof pow2B as HP.
  destruct (scale255 x1 V1 F1 H1) as (W1 & G1 & E1 & R1).
  destruct (scale255 x2 V2 F2 H2) as (W2 & G2 & E2 & R2).
  rewrite !astype_val by (try assumption; lia).
  apply Z.div_le_mono; [lia|]. rewrite E1, E2. apply R32_mono. lia.
Qed.

Lemma erode_arg_Some n d :
  erode_arg n = Ok (Some d) ->
  0 < n /\ is_infinity (F64.of_Z n) = false /\
  d = F64.mul (F64.dec 8 100) (F64.of_Z n).
Proof.
  intros H.
  destruct (erode_arg_cases n) as [[_ E]|[(H1 & H2 & E)|(_ & _ & E)]];
    rewrite E in H; try discriminate.
  injection H as <-. auto.
Qed.

Lemma erode_arg_None n : erode_arg n = Ok None -> n <= 0.
Proof.
  intros H.
  destruct (erode_arg_cases n) as [[H1 E]|[(H1 & H2 & E)|(_ & _ & E)]];
    rewrite E in H; try discriminate. exact H1.
Qed.

Lemma a_new_range cfg n d p :
  erode_arg n = Ok d ->
  F32.valid (a_new cfg d (alpha p)) = true /\
  is_finite (a_new cfg d (alpha p)) = true /\
  0 <= v32 (a_new cfg d (alpha p)) <= v32 (alpha p).
Proof using HB.
  intros H. destruct (alpha_shape p) as (V & F & _ & _).
  pose proof (alpha_val p) as Ha.
  unfold a_new. destruct d as [d|]; [|repeat split; try assumption; lia].
  destruct (edge cfg (alpha p)); [|repeat split; try assumption; lia].
  destruct (erode_arg_Some n d H) as (Hn & Hi & ->).
  destruct (delta_spec n Hi) as (Vd & Nd & _).
  pose proof (delta_nonneg n ltac:(lia) Hi) as Hd.
  destruct (eroded_spec _ (alpha p) V F Vd Nd) as (V' & F' & _).
  pose proof (eroded_le _ (alpha p) V F Vd Nd Hd Ha).
  repeat split; try assumption; lia.
Qed.

Lemma a_new_clamped cfg n d p :
  erode_arg n = Ok d ->
  F32.leb (F32.of_Z 0) (a_new cfg d (alpha p)) = true /\
  F32.leb (a_new cfg d (alpha p)) (F32.of_Z 1) = true.
Proof using HB.
  intros H. destruct (a_new_range cfg n d p H) as (V & F & R0).
  pose proof (alpha_val p) as Ha.
  assert (N : is_nan (a_new cfg d (alpha p)) = false)
    by (now destruct (a_new cfg d (alpha p))).
  destruct (f32_of_Z_spec 0 ltac:(lia)) as (V0 & _ & E0).
  destruct (f32_of_Z_spec 1 ltac:(lia)) as (V1 & _ & E1).
  unfold F32.leb. rewrite !f32_leb_val by (assumption || reflexivity).
  rewrite E0, E1. split; apply Z.leb_le; lia.
Qed.

Lemma a_new_mono cfg n1 n2 d1 d2 p :
  erode_arg n1 = Ok d1 -> erode_arg n2 = Ok d2 -> n1 <= n2 ->
  v32 (a_new cfg d2 (alpha p)) <= v32 (a_new cfg d1 (alpha p)).
Proof using HB.
  intros H1 H2 Hn. destruct (alpha_shape p) as (V & F & _ & _).
  pose proof (alpha_val p) as Ha.
  destruct d1 as [d1|].
  - destruct (erode_arg_Some n1 d1 H1) as (Hn1 & Hi1 & E1).
    destruct d2 as [d2|].
    + destruct (erode_arg_Some n2 d2 H2) as (Hn2 & Hi2 & E2).
      unfold a_new. destruct (edge cfg (alpha p)); [|lia].
      subst d1 d2.
      destruct (delta_spec n1 Hi1) as (Vd1 & Nd1 & _).
      destruct (delta_spec n2 Hi2) as (Vd2 & Nd2 & _).
      apply eroded_mono; try assumption. now apply delta_mono.
    + apply erode_arg_None in H2. lia.
  - pose proof (a_new_range cfg n2 d2 p H2) as (_ & _ & Hr).
    cbn [a_new]. lia.
Qed.

Lemma alpha_out_mono cfg n1 n2 d1 d2 p :
  erode_arg n1 = Ok d1 -> erode_arg n2 = Ok d2 -> n1 <= n2 ->
  Z_of_byte (A (defringe_pixel cfg d2 p)) <=
  Z_of_byte (A (defringe_pixel cfg d1 p)).
Proof using HB.
  intros H1 H2 Hn. pose proof (alpha_val p) as Ha.
  destruct (a_new_range cfg n1 d1 p H1) as (V1 & F1 & R1).
  destruct (a_new_range cfg n2 d2 p H2) as (V2 & F2 & R2).
  pose proof (a_new_mono cfg n1 n2 d1 d2 p H1 H2 Hn) as Hm.
  unfold defringe_pixel, out_pixel, quantize. cbn [A fA].
  apply out_alpha_le; try assumption; lia.
Qed.

(** *** The blend for a strength between 0 and 1

    The two weights are roundings of [1 - s] and [s]; with [s] between
    two neighbours of the grid of step 1/256, which both formats hold
    exactly, monotonicity bounds the blend by [255 * 257 / 256]. *)

Lemma val64_one : v64 (F64.of_Z 1) = 2 ^ B.
Proof using HB.
  destruct (f64_of_Z_spec 1 eq_refl) as (_ & _ & ->).
  pose proof (R64_exact 1 0 ltac:(lia) ltac:(lia)) as Q.
  rewrite Z.add_0_l in Q. rewrite Q. lia.
Qed.

Lemma cap64_big : 256 * 2 ^ B < 2 ^ (1024 + B).
Proof using HB.
  change 256 with (2 ^ 8). rewrite <- Z.pow_add_r by lia.
  apply pow2_lt; lia.
Qed.

Lemma blend_range s c f :
  F64.valid s = true ->
  SFleb (F64.of_Z 0) s = true -> SFleb s (F64.of_Z 1) = true ->
  F32.valid c = true -> is_finite c = true -> 0 <= v32 c <= 255 * 2 ^ B ->
  F32.valid f = true -> is_finite f = true -> 0 <= v32 f <= 255 * 2 ^ B ->
  F32.valid (blend s c f) = true /\ is_finite (blend s c f) = true /\
  0 <= v32 (blend s c f) < 256 * 2 ^ B.
Proof using HB.
  intros Vs L0 L1 Vc Fc Hc Vf Ff Hf.
  assert (Ns : is_nan s = false) by (now destruct s).
  rewrite f64_leb_val in L0, L1 by (assumption || reflexivity).
  apply Z.leb_le in L0. apply Z.leb_le in L1.
  rewrite val64_one in L1. change (v64 (F64.of_Z 0)) with 0 in L0.
  pose proof pow2B as HP. pose proof cap64_big as C64.
  pose proof cap32_big as C32.
  assert (Fs : is_finite s = true)
    by (apply (finite_of_val 53 1024 B); try assumption; lia).
  remember (2 ^ (-8 + B)) as u eqn:Eu.
  assert (Hu : 0 < u) by (subst u; apply pow2_pos; lia).
  assert (HBu : 2 ^ B = 256 * u).
  { subst u. change 256 with (2 ^ 8). rewrite <- Z.pow_add_r by lia.
    f_equal. lia. }
  assert (X64 : forall k, 0 <= k <= 65536 -> R64 (k * u) = k * u).
  { intros k Hk. subst u. apply R64_exact; [|lia].
    change (2 ^ 53) with 9007199254740992. lia. }
  assert (X32 : forall k, 0 <= k <= 65536 -> R32 (k * u) = k * u).
  { intros k Hk. subst u. apply R32_exact; [|lia].
    change (2 ^ 24) with 16777216. lia. }
  remember (v64 s) as g eqn:Eg.
  remember (g / u) as i eqn:Ei.
  assert (Hi : i * u <= g < (i + 1) * u).
  { pose proof (Z.div_mod g u ltac:(lia)) as D.
    pose proof (Z.mod_pos_bound g u Hu) as M. rewrite <- Ei in D. lia. }
  assert (Hi2 : 0 <= i <= 256).
  { subst i. split; [apply Z.div_pos; lia|].
    apply Z.div_le_upper_bound; lia. }
  (* the two weights *)
  destruct (f64_sub_spec (F64.of_Z 1) s eq_refl Vs eq_refl Fs) as (Vm & Nm & Em).
  rewrite val64_one, <- Eg in Em.
  destruct (of_f64_spec _ Vm Nm) as (Vw1 & Nw1 & Ew1).
  destruct (of_f64_spec s Vs Ns) as (Vw2 & Nw2 & Ew2).
  change (SFsub 53 1024) with F64.sub in *.
  rewrite Em in Ew1. rewrite <- Eg in Ew2.
  remember (F32.of_f64 (F64.sub (F64.of_Z 1) s)) as w1 eqn:E1.
  remember (F32.of_f64 s) as w2 eqn:E2.
  assert (B1 : 0 <= v32 w1 <= (256 - i) * u).
  { rewrite Ew1. split; [apply R32_nonneg, R64_nonneg; lia|].
    rewrite <- (X32 (256 - i)), <- (X64 (256 - i)) by lia.
    apply R32_mono, R64_mono. lia. }
  assert (B2 : 0 <= v32 w2 <= (i + 1) * u).
  { rewrite Ew2. split; [apply R32_nonneg; lia|].
    rewrite <- (X32 (i + 1)) by lia. apply R32_mono. lia. }
  assert (F1 : is_finite w1 = true)
    by (apply f32_finite_of_val; try assumption; nia).
  assert (F2 : is_finite w2 = true)
    by (apply f32_finite_of_val; try assumption; nia).
  (* the two products *)
  destruct (f32_mul_spec w1 c Vw1 Vc F1 Fc) as (Vp1 & Np1 & Ep1).
  destruct (f32_mul_spec w2 f Vw2 Vf F2 Ff) as (Vp2 & Np2 & Ep2).
  change (SFmul 24 128) with F32.mul in *.
  assert (P1 : 0 <= v32 (F32.mul w1 c) <= ((256 - i) * 255) * u).
  { rewrite Ep1.
    split; [apply R32_nonneg, Z.div_pos; nia|].
    rewrite <- (X32 ((256 - i) * 255)) by nia. apply R32_mono.
    apply Z.div_le_upper_bound; [lia|].
    apply Z.le_trans with (((256 - i) * u) * (255 * 2 ^ B)); [|lia].
    apply Z.mul_le_mono_nonneg; lia. }
  assert (P2 : 0 <= v32 (F32.mul w2 f) <= ((i + 1) * 255) * u).
  { rewrite Ep2.
    split; [apply R32_nonneg, Z.div_pos; nia|].
    rewrite <- (X32 ((i + 1) * 255)) by nia. apply R32_mono.
    apply Z.div_le_upper_bound; [lia|].
    apply Z.le_trans with (((i + 1) * u) * (255 * 2 ^ B)); [|lia].
    apply Z.mul_le_mono_nonneg; lia. }
  assert (G1 : is_finite (F32.mul w1 c) = true)
    by (apply f32_finite_of_val; try assumption; nia).
  assert (G2 : is_finite (F32.mul w2 f) = true)
    by (apply f32_finite_of_val; try assumption; nia).
  (* their sum *)
  destruct (f32_add_spec _ _ Vp1 Vp2 G1 G2) as (Va & Na & Ea).
  change (SFadd 24 128) with F32.add in *.
  assert (S : 0 <= v32 (F32.add (F32.mul w1 c) (F32.mul w2 f)) <= 65535 * u).
  { rewrite Ea.
    split; [apply R32_nonneg; lia|].
    rewrite <- (X32 65535) by lia. apply R32_mono. nia. }
  unfold blend. rewrite <- E1, <- E2.
  repeat split; try assumption; try lia.
  apply f32_finite_of_val; try assumption. lia.
Qed.

Lemma rgb_new_range cfg p b :
  F64.valid (strength cfg) = true ->
  SFleb (F64.of_Z 0) (strength cfg) = true ->
  SFleb (strength cfg) (F64.of_Z 1) = true ->
  F64.valid (bg cfg) = true -> is_finite (F32.of_f64 (bg cfg)) = true ->
  F32.valid (rgb_new cfg (alpha p) b) = true /\
  is_finite (rgb_new cfg (alpha p) b) = true /\
  0 <= v32 (rgb_new cfg (alpha p) b) < 256 * 2 ^ B.
Proof using HB.
  intros Vs L0 L1 Vbg Fbg. pose proof pow2B as HP.
  destruct (as_float32_spec b) as (Vc & Fc & Ec).
  pose proof (Z_of_byte_range b) as Hb.
  assert (Hc : 0 <= v32 (as_float32 b) <= 255 * 2 ^ B) by (rewrite Ec; nia).
  unfold rgb_new. destruct (edge cfg (alpha p)).
  - destruct (fg_finite cfg p b Vbg Fbg) as (Vf & Ff & Hf).
    now apply blend_range.
  - repeat split; try assumption; lia.
Qed.

Lemma rgb_new_in_range cfg p b :
  F64.valid (strength cfg) = true ->
  SFleb (F64.of_Z 0) (strength cfg) = true ->
  SFleb (strength cfg) (F64.of_Z 1) = true ->
  F64.valid (bg cfg) = true -> is_finite (F32.of_f64 (bg cfg)) = true ->
  is_finite (rgb_new cfg (alpha p) b) = true /\
  F32.leb (F32.of_Z 0) (rgb_new cfg (alpha p) b) = true /\
  F32.ltb (rgb_new cfg (alpha p) b) (F32.of_Z 256) = true /\
  trunc (rgb_new cfg (alpha p) b) =
    Some (Z_of_byte (astype_uint8 (rgb_new cfg (alpha p) b))).
Proof using HB.
  intros Vs L0 L1 Vbg Fbg.
  destruct (rgb_new_range cfg p b Vs L0 L1 Vbg Fbg) as (V & F & H).
  assert (N : is_nan (rgb_new cfg (alpha p) b) = false)
    by (now destruct (rgb_new cfg (alpha p) b)).
  destruct (f32_of_Z_spec 0 ltac:(lia)) as (V0 & _ & E0).
  destruct (f32_of_Z_spec 256 ltac:(lia)) as (V256 & _ & E256).
  unfold F32.leb, F32.ltb.
  rewrite f32_leb_val, f32_ltb_val by (assumption || reflexivity).
  rewrite E0, E256.
  repeat split; try assumption.
  - apply Z.leb_le. lia.
  - apply Z.ltb_lt. lia.
  - rewrite astype_val by assumption. apply trunc_val; try assumption. lia.
Qed.

Lemma alpha_out_floor cfg n d p :
  erode_arg n = Ok d -> 13 <= n -> edge cfg (alpha p) = true ->
  A (defringe_pixel cfg d p) = x00.
Proof using HB.
  intros H Hn He.
  assert (H13 : erode_arg 13 =
                Ok (Some (F64.mul (F64.dec 8 100) (F64.of_Z 13))))
    by reflexivity.
  pose proof (alpha_out_mono cfg 13 n _ d p H13 H Hn) as Hm.
  assert (E : A (defringe_pixel cfg
                   (Some (F64.mul (F64.dec 8 100) (F64.of_Z 13))) p) = x00).
  { unfold defringe_pixel, out_pixel, quantize, a_new. cbn [A fA].
    rewrite He. apply eroded_13. }
  rewrite E in Hm. apply Z_of_byte_inj.
  pose proof (Z_of_byte_range (A (defringe_pixel cfg d p))).
  change (Z_of_byte x00) with 0 in *. lia.
Qed.
End Scaled.

(** * The program

    ** A few runs *)

Example literal_0_08 :
  F64.dec 8 100 = S754_finite false 5764607523034235 (-56).
Proof. reflexivity. Qed.

Example literal_1e_6 :
  F32.of_f64 (F64.dec 1 1000000) = S754_finite false 8796093 (-43).
Proof. reflexivity. Qed.

Example run_default :
  defringe_core default_config
    [[px 200 200 200 128; px 10 20 30 255]; [px 10 10 10 26; px 0 0 0 0]]
  = Ok [[px 145 145 145 128; px 10 20 30 255]; [px 0 0 0 26; px 0 0 0 0]].
Proof. vm_compute. reflexivity. Qed.

Example run_half_strength :
  defringe_core
    (Config (F64.of_Z 255) (F64.dec 5 100) (F64.dec 95 100) (F64.dec 1 2) 0)
    [[px 200 200 200 128; px 10 20 30 255]; [px 10 10 10 26; px 0 0 0 0]]
  = Ok [[px 172 172 172 128; px 10 20 30 255]; [px 5 5 5 26; px 0 0 0 0]].
Proof. vm_compute. reflexivity. Qed.

Example run_erode_1 :
  defringe_core
    (Config (F64.of_Z 255) (F64.dec 5 100) (F64.dec 95 100) (F64.of_Z 1) 1)
    [[px 200 200 200 128; px 10 20 30 255]; [px 10 10 10 26; px 0 0 0 0]]
  = Ok [[px 145 145 145 107; px 10 20 30 255]; [px 0 0 0 5; px 0 0 0 0]].
Proof. vm_compute. reflexivity. Qed.

Example run_erode_too_large :
  defringe_core
    (Config (F64.of_Z 255) (F64.dec 5 100) (F64.dec 95 100) (F64.of_Z 1)
            (2 ^ 1024))
    [[px 200 200 200 128]]
  = Raise OverflowError.
Proof. vm_compute. reflexivity. Qed.

(** With a NaN background the unmixed colour is NaN, and so is its
    product with a strength of 0. *)
Example run_nan_background :
  defringe_core
    (Config S754_nan (F64.dec 5 100) (F64.dec 95 100) (F64.of_Z 0) 0)
    [[px 200 200 200 128]]
  = Ok [[px 0 0 0 128]].
Proof. vm_compute. reflexivity. Qed.

(** ** Samples that the algorithm does not touch *)

Lemma astype_as_float32 b : astype_uint8 (as_float32 b) = b.
Proof. destruct b; vm_compute; reflexivity. Qed.

(** Dividing an 8-bit alpha by 255 and multiplying it back is exact in
    binary32, for each of the 256 values. *)
Lemma alpha_roundtrip p :
  astype_uint8 (F32.mul (alpha p) (F32.of_f64 (F64.of_Z 255))) = A p.
Proof. destruct p as [r g b a]. destruct a; vm_compute; reflexivity. Qed.

Lemma defringe_pixel_outside cfg d p :
  edge cfg (alpha p) = false -> defringe_pixel cfg d p = p.
Proof.
  intros H. unfold defringe_pixel, out_pixel, quantize, rgb_new, a_new.
  cbn [fR fG fB fA]. rewrite H.
  replace (match d with Some _ => alpha p | None => alpha p end)
    with (alpha p) by now destruct d.
  rewrite !astype_as_float32, alpha_roundtrip. now destruct p.
Qed.

Lemma defringe_pixel_alpha_None cfg p : A (defringe_pixel cfg None p) = A p.
Proof.
  unfold defringe_pixel, out_pixel, quantize, a_new. cbn [A fA].
  apply alpha_roundtrip.
Qed.

(** ** The comparison of two floats *)

Lemma SFcompare_antisym x y :
  SFcompare y x = option_map CompOpp (SFcompare x y).
Proof.
  destruct x as [sx|sx| |sx mx ex], y as [sy|sy| |sy my ey];
    try reflexivity; try (destruct sx; reflexivity);
    try (destruct sy; reflexivity); try (destruct sx, sy; reflexivity).
  destruct sx, sy; cbn [SFcompare option_map]; try reflexivity;
    rewrite (Z.compare_antisym ex ey);
    destruct (ex ?= ey); cbn [CompOpp]; try reflexivity;
    now rewrite (Pos.compare_cont_antisym mx my Eq).
Qed.

Lemma SFleb_not_ltb x y : SFleb x y = true -> SFltb y x = false.
Proof.
  unfold SFleb, SFltb. rewrite (SFcompare_antisym x y).
  destruct (SFcompare x y) as [[| |]|]; try discriminate; reflexivity.
Qed.

Lemma edge_outside cfg a :
  F32.leb a (F32.of_f64 (a_low cfg)) = true \/
  F32.leb (F32.of_f64 (a_high cfg)) a = true ->
  edge cfg a = false.
Proof.
  unfold edge, F32.leb, F32.ltb. intros [H|H];
    rewrite (SFleb_not_ltb _ _ H); [reflexivity|apply andb_false_r].
Qed.

(** ** What the call returns *)

Lemma quantize_out_array cfg d arr :
  map (map quantize) (out_array cfg d arr) =
  map (map (defringe_pixel cfg d)) arr.
Proof.
  unfold out_array. rewrite map_map. apply map_ext. intros row.
  apply map_map.
Qed.

Lemma defringe_core_Ok cfg arr out :
  defringe_core cfg arr = Ok out ->
  exists d, erode_arg (erode_alpha_px cfg) = Ok d /\
            out = map (map (defringe_pixel cfg d)) arr.
Proof.
  unfold defringe_core.
  destruct (erode_arg (erode_alpha_px cfg)) as [d|e]; [|discriminate].
  intros [= <-]. exists d. split; [reflexivity|apply quantize_out_array].
Qed.

Lemma pixel_at_map f (arr : raster) i j :
  pixel_at (map (map f) arr) i j = option_map f (pixel_at arr i j).
Proof.
  unfold pixel_at. rewrite nth_error_map.
  destruct (nth_error arr i) as [row|]; cbn [option_map]; [|reflexivity].
  apply nth_error_map.
Qed.

(** The output pixel at a place is computed from the input pixel at that
    place. *)
Lemma defringe_core_pointwise cfg arr out i j :
  defringe_core cfg arr = Ok out ->
  exists d, erode_arg (erode_alpha_px cfg) = Ok d /\
            pixel_at out i j =
            option_map (defringe_pixel cfg d) (pixel_at arr i j).
Proof.
  intros H. destruct (defringe_core_Ok _ _ _ H) as (d & Hd & ->).
  exists d. split; [exact Hd|apply pixel_at_map].
Qed.

Lemma widths_map f (arr : raster) : widths (map (map f) arr) = widths arr.
Proof.
  unfold widths. rewrite map_map. apply map_ext. intros row. apply length_map.
Qed.

Lemma defringe_core_cases cfg arr :
  (raises_overflow cfg = false /\
   exists d, erode_arg (erode_alpha_px cfg) = Ok d /\
             defringe_core cfg arr = Ok (map (map (defringe_pixel cfg d)) arr)) \/
  (raises_overflow cfg = true /\ defringe_core cfg arr = Raise OverflowError).
Proof.
  unfold defringe_core, raises_overflow.
  destruct (erode_arg_cases (erode_alpha_px cfg))
    as [[H E]|[(H & H1 & E)|(H & H1 & E)]]; rewrite E.
  - left. split.
    + destruct (Z.ltb_spec 0 (erode_alpha_px cfg)); [lia|reflexivity].
    + eexists. split; [reflexivity|]. now rewrite quantize_out_array.
  - left. split.
    + rewrite H1. apply andb_false_r.
    + eexists. split; [reflexivity|]. now rewrite quantize_out_array.
  - right. split; [|reflexivity]. rewrite H1.
    destruct (Z.ltb_spec 0 (erode_alpha_px cfg)); [reflexivity|lia].
Qed.

Lemma map_map_id (f : pixel -> pixel) (arr : raster) :
  (forall p, f p = p) -> map (map f) arr = arr.
Proof.
  intros H. rewrite <- (map_id arr) at 2. apply map_ext. intros row.
  rewrite <- (map_id row) at 2. now apply map_ext.
Qed.
(** * The claims of the specification *)


(** C1, as the code has it: the thresholds are not validated and no call
    raises [InvalidConfig].  A call either binds the output path to the
    output raster, or raises [DecodeError] (the input does not decode) or
    [OverflowError] ([erode_alpha_px] does not fit a float). *)
Theorem C1_no_invalid_config png_in png_out cfg (files : gmap string raster) :
  match defringe_white_v2 png_in png_out cfg files with
  | Ok files' =>
      exists arr out, files !! png_in = Some arr /\
                      defringe_core cfg arr = Ok out /\
                      files' = <[png_out := out]> files
  | Raise e =>
      e <> InvalidConfig /\
      ((e = DecodeError /\ files !! png_in = None) \/
       (e = OverflowError /\ raises_overflow cfg = true))
  end.
Proof.
  unfold defringe_white_v2.
  destruct (files !! png_in) as [arr|] eqn:E.
  - destruct (defringe_core_cases cfg arr) as [(H & d & _ & E')|[H E']];
      rewrite E'.
    + exists arr. eexists. repeat split. exact E'.
    + split; [discriminate|]. now right.
  - split; [discriminate|]. now left.
Qed.

(** C1, as the specification states it, fails: with [a_low = 0.9] and
    [a_high = 0.1] the call returns a raster (its input). *)
Lemma C1_counterexample :
  let cfg := Config (F64.of_Z 255) (F64.dec 9 10) (F64.dec 1 10) (F64.of_Z 1) 0 in
  SFleb (a_high cfg) (a_low cfg) = true /\
  defringe_core cfg [[px 200 200 200 128]] = Ok [[px 200 200 200 128]] /\
  defringe_core cfg [[px 200 200 200 128]] <> Raise InvalidConfig.
Proof. cbv zeta. repeat split. discriminate. Qed.

(** C2: with [strength = 1] an edge-band pixel gets, per channel, the
    8-bit cast of [clip ((observed - bg * (1 - safe_a)) / safe_a) 0 255]
    with [safe_a = max alpha 1e-6], which is [alpha] itself unless the
    alpha sample is 0.  At alpha 0.5 the formula gives 145 for 200 over
    255 (and the pixel of alpha 128/255 comes out as 145); at alpha 0.1 it
    gives -2195 for 10, which the clip brings to 0. *)
Theorem C2_full_unmix cfg d p :
  strength cfg = F64.of_Z 1 -> F64.valid (bg cfg) = true ->
  edge cfg (alpha p) = true ->
  let sa := npy_max (alpha p) (F32.of_f64 (F64.dec 1 1000000)) in
  let unmixed c :=
    clip (F32.div
            (F32.sub c (F32.mul (F32.of_f64 (bg cfg))
                                (F32.sub (F32.of_f64 (F64.of_Z 1)) sa)))
            sa)
         (F32.of_Z 0) (F32.of_Z 255) in
  (R (defringe_pixel cfg d p) = astype_uint8 (unmixed (as_float32 (R p))) /\
   G (defringe_pixel cfg d p) = astype_uint8 (unmixed (as_float32 (G p))) /\
   B (defringe_pixel cfg d p) = astype_uint8 (unmixed (as_float32 (B p)))) /\
  (A p <> x00 -> sa = alpha p) /\
  unmix (F32.of_Z 255) (F32.of_f64 (F64.dec 1 2)) (F32.of_Z 200) = F32.of_Z 145 /\
  defringe_pixel default_config None (px 200 200 200 128) = px 145 145 145 128 /\
  unmix (F32.of_Z 255) (F32.of_f64 (F64.dec 1 10)) (F32.of_Z 10)
    = F32.of_Z (- 2195) /\
  clip (F32.of_Z (- 2195)) (F32.of_Z 0) (F32.of_Z 255) = F32.of_Z 0 /\
  defringe_pixel default_config None (px 10 10 10 26) = px 0 0 0 26.
Proof.
  intros Hs Vbg He. cbv zeta. rewrite <- safe_a_is_max.
  split; [|split; [apply safe_a_is_alpha|repeat split; vm_compute; reflexivity]].
  unfold defringe_pixel, out_pixel, quantize. cbn [R G B fR fG fB].
  rewrite !(rgb_new_strength_one 2200 ltac:(lia) cfg p _ Hs Vbg He).
  repeat split.
Qed.

Lemma C2_witness :
  R (defringe_pixel default_config None (px 200 150 100 128)) = byte_of_Z 145.
Proof.
  destruct (C2_full_unmix default_config None (px 200 150 100 128)
              eq_refl eq_refl eq_refl) as ((HR & _ & _) & _).
  rewrite HR. vm_compute. reflexivity.
Defined.

(** C3: a pixel whose alpha is at most [a_low] or at least [a_high] comes
    out as it went in: its RGB for every configuration, and its alpha too
    (whatever [erode_alpha_px], so for [erode_alpha_px = 0] as well). *)
Theorem C3_outside_band_untouched cfg arr out i j p :
  defringe_core cfg arr = Ok out ->
  pixel_at arr i j = Some p ->
  F32.leb (alpha p) (F32.of_f64 (a_low cfg)) = true \/
  F32.leb (F32.of_f64 (a_high cfg)) (alpha p) = true ->
  pixel_at out i j = Some p.
Proof.
  intros Hout Hp Hband.
  destruct (defringe_core_Ok _ _ _ Hout) as (d & _ & ->).
  rewrite pixel_at_map, Hp. cbn [option_map]. f_equal.
  apply defringe_pixel_outside. now apply edge_outside.
Qed.

Lemma C3_witness :
  pixel_at [[px 10 20 30 255; px 1 2 3 12]] 0 1 = Some (px 1 2 3 12).
Proof.
  apply (C3_outside_band_untouched default_config
           [[px 10 20 30 255; px 1 2 3 12]] [[px 10 20 30 255; px 1 2 3 12]]
           0%nat 1%nat (px 1 2 3 12)).
  - reflexivity.
  - reflexivity.
  - left. reflexivity.
Defined.

(** C4: with [strength = 0] (either zero) every pixel, in the edge band
    or not, keeps its RGB.  The background is any value that is finite
    as a [float32]; the [0..255] of the specification is ([bg_in_range_finite]). *)
Theorem C4_strength_zero_identity cfg arr out i j p s :
  strength cfg = S754_zero s ->
  F64.valid (bg cfg) = true -> is_finite (F32.of_f64 (bg cfg)) = true ->
  defringe_core cfg arr = Ok out -> pixel_at arr i j = Some p ->
  exists q, pixel_at out i j = Some q /\
            R q = R p /\ G q = G p /\ B q = B p.
Proof.
  intros Hs Vbg Fbg Hout Hp.
  destruct (defringe_core_Ok _ _ _ Hout) as (d & _ & ->).
  rewrite pixel_at_map, Hp. cbn [option_map]. eexists. split; [reflexivity|].
  unfold defringe_pixel, out_pixel, quantize. cbn [R G B fR fG fB].
  rewrite !(rgb_new_strength_zero 2200 ltac:(lia) cfg p _ s Hs Vbg Fbg).
  now rewrite !astype_as_float32.
Qed.

Lemma C4_witness :
  exists q, pixel_at [[px 200 150 100 128]] 0 0 = Some q /\
            R q = R (px 200 150 100 128) /\ G q = G (px 200 150 100 128) /\
            B q = B (px 200 150 100 128).
Proof.
  apply (C4_strength_zero_identity
           (Config (F64.of_Z 255) (F64.dec 5 100) (F64.dec 95 100) (F64.of_Z 0) 0)
           [[px 200 150 100 128]] [[px 200 150 100 128]] 0%nat 0%nat
           (px 200 150 100 128) false); reflexivity.
Defined.

(** C5: the colour of an edge-band pixel is the blend
    [(1 - strength) * observed + strength * fg], whatever the strength,
    and goes to the 8-bit cast as it is: strength 1.5 takes 100 and 200
    to 250, strength 2 takes 100 and 255 to 410. *)
Theorem C5_linear_blend cfg d p :
  edge cfg (alpha p) = true ->
  let mix c :=
    F32.add (F32.mul (F32.of_f64 (F64.sub (F64.of_Z 1) (strength cfg))) c)
            (F32.mul (F32.of_f64 (strength cfg)) (fg cfg (alpha p) c)) in
  (fR (out_pixel cfg d p) = mix (as_float32 (R p)) /\
   fG (out_pixel cfg d p) = mix (as_float32 (G p)) /\
   fB (out_pixel cfg d p) = mix (as_float32 (B p))) /\
  (R (defringe_pixel cfg d p) = astype_uint8 (mix (as_float32 (R p))) /\
   G (defringe_pixel cfg d p) = astype_uint8 (mix (as_float32 (G p))) /\
   B (defringe_pixel cfg d p) = astype_uint8 (mix (as_float32 (B p)))) /\
  blend (F64.dec 3 2) (F32.of_Z 100) (F32.of_Z 200) = F32.of_Z 250 /\
  defringe_pixel
    (Config (F64.of_Z 75) (F64.dec 5 100) (F64.dec 95 100) (F64.dec 3 2) 0)
    None (px 100 100 100 51) = px 250 250 250 51 /\
  blend (F64.of_Z 2) (F32.of_Z 100) (F32.of_Z 255) = F32.of_Z 410.
Proof.
  intros He. cbv zeta.
  unfold defringe_pixel, out_pixel, quantize, rgb_new, blend.
  cbn [R G B fR fG fB]. rewrite He.
  repeat split; vm_compute; reflexivity.
Qed.

Lemma C5_witness :
  fR (out_pixel
        (Config (F64.of_Z 75) (F64.dec 5 100) (F64.dec 95 100) (F64.dec 3 2) 0)
        None (px 100 100 100 51)) = F32.of_Z 250.
Proof.
  destruct (C5_linear_blend
              (Config (F64.of_Z 75) (F64.dec 5 100) (F64.dec 95 100) (F64.dec 3 2) 0)
              None (px 100 100 100 51) eq_refl) as ((HR & _) & _).
  rewrite HR. vm_compute. reflexivity.
Defined.

(** C6: a positive [erode_alpha_px] replaces the alpha of an edge-band
    pixel by [clip (alpha - 0.08 * erode_alpha_px) 0 1], pixel by pixel,
    and leaves the alpha of the other pixels alone; [erode_alpha_px <= 0]
    leaves every alpha alone.  For a given pixel the output alpha does not
    increase with [erode_alpha_px], stays between 0 and 1 before it is
    scaled to 8 bits, and is 0 from [erode_alpha_px = 13] on.  ([d1] and [d2] are what [erode_alpha_px =
    n1] and [n2] subtract.) *)
Theorem C6_erosion cfg p n1 n2 d1 d2 :
  erode_arg n1 = Ok d1 -> erode_arg n2 = Ok d2 -> n1 <= n2 ->
  (0 < n2 -> edge cfg (alpha p) = true ->
   A (defringe_pixel cfg d2 p) =
   astype_uint8
     (F32.mul
        (clip (F32.sub (alpha p)
                 (F32.of_f64 (F64.mul (F64.dec 8 100) (F64.of_Z n2))))
              (F32.of_Z 0) (F32.of_Z 1))
        (F32.of_f64 (F64.of_Z 255)))) /\
  (edge cfg (alpha p) = false -> A (defringe_pixel cfg d2 p) = A p) /\
  (n2 <= 0 -> A (defringe_pixel cfg d2 p) = A p) /\
  (forall arr out i j,
     erode_alpha_px cfg = n2 -> defringe_core cfg arr = Ok out ->
     pixel_at out i j = option_map (defringe_pixel cfg d2) (pixel_at arr i j)) /\
  Z_of_byte (A (defringe_pixel cfg d2 p)) <=
    Z_of_byte (A (defringe_pixel cfg d1 p)) /\
  (F32.leb (F32.of_Z 0) (a_new cfg d2 (alpha p)) = true /\
   F32.leb (a_new cfg d2 (alpha p)) (F32.of_Z 1) = true) /\
  (13 <= n2 -> edge cfg (alpha p) = true ->
   A (defringe_pixel cfg d2 p) = x00).
Proof.
  intros H1 H2 Hn. repeat split.
  - intros Hpos He.
    destruct (erode_arg_cases n2) as [[? E]|[(_ & _ & E)|(_ & _ & E)]];
      rewrite E in H2; try discriminate; try lia.
    injection H2 as <-.
    unfold defringe_pixel, out_pixel, quantize, a_new, eroded. cbn [A fA].
    now rewrite He.
  - intros He. now rewrite defringe_pixel_outside.
  - intros Hle.
    destruct (erode_arg_cases n2) as [[? E]|[(? & _ & E)|(? & _ & E)]];
      rewrite E in H2; try discriminate; try lia.
    injection H2 as <-. apply defringe_pixel_alpha_None.
  - intros arr out i j En Hout.
    destruct (defringe_core_pointwise _ _ _ i j Hout) as (d & Hd & ->).
    rewrite En, H2 in Hd. now injection Hd as <-.
  - now apply (alpha_out_mono 2200 ltac:(lia) cfg n1 n2).
  - now apply (a_new_clamped 2200 ltac:(lia) cfg n2).
  - now apply (a_new_clamped 2200 ltac:(lia) cfg n2).
  - intros H13 He. now apply (alpha_out_floor 2200 ltac:(lia) cfg n2).
Qed.

Lemma C6_witness :
  Z_of_byte (A (defringe_pixel default_config
                  (Some (F64.mul (F64.dec 8 100) (F64.of_Z 2)))
                  (px 200 200 200 128))) <=
  Z_of_byte (A (defringe_pixel default_config
                  (Some (F64.mul (F64.dec 8 100) (F64.of_Z 1)))
                  (px 200 200 200 128))).
Proof.
  destruct (C6_erosion default_config (px 200 200 200 128) 1 2
              (Some (F64.mul (F64.dec 8 100) (F64.of_Z 1)))
              (Some (F64.mul (F64.dec 8 100) (F64.of_Z 2)))
              eq_refl eq_refl ltac:(lia))
    as (_ & _ & _ & _ & H & _).
  exact H.
Defined.

(** C7: the output raster has the height and the row widths of the input
    raster; the call returns one unless [erode_alpha_px] overflows. *)
Theorem C7_dimensions cfg arr :
  match defringe_core cfg arr with
  | Ok out => height out = height arr /\ widths out = widths arr
  | Raise e => e = OverflowError /\ raises_overflow cfg = true
  end.
Proof.
  destruct (defringe_core_cases cfg arr) as [(H & d & _ & ->)|[H ->]].
  - split; [apply length_map|apply widths_map].
  - now split.
Qed.

(** C9, as the code has it: when [a_low >= a_high] no pixel is in the
    edge band and the output raster is the input raster, for every
    strength; the call returns it unless [erode_alpha_px] is positive and
    too large for a float, in which case it raises [OverflowError]. *)
Theorem C9_empty_band cfg arr :
  F64.valid (a_low cfg) = true -> F64.valid (a_high cfg) = true ->
  SFleb (a_high cfg) (a_low cfg) = true ->
  (forall p, edge cfg (alpha p) = false) /\
  match defringe_core cfg arr with
  | Ok out => out = arr
  | Raise e => e = OverflowError /\ raises_overflow cfg = true
  end.
Proof.
  intros Vl Vh H.
  assert (He : forall p, edge cfg (alpha p) = false)
    by (intros p; now apply (edge_empty 2200 ltac:(lia))).
  split; [exact He|].
  destruct (defringe_core_cases cfg arr) as [(_ & d & _ & ->)|[Ho ->]].
  - apply map_map_id. intros p. now apply defringe_pixel_outside.
  - now split.
Qed.

Lemma C9_witness :
  let cfg := Config (F64.of_Z 255) (F64.dec 9 10) (F64.dec 1 10) (F64.dec 3 2) 3 in
  let arr := [[px 200 200 200 128; px 10 10 10 26]] in
  (forall p, edge cfg (alpha p) = false) /\
  match defringe_core cfg arr with
  | Ok out => out = arr
  | Raise e => e = OverflowError /\ raises_overflow cfg = true
  end.
Proof.
  cbv zeta.
  apply (C9_empty_band
           (Config (F64.of_Z 255) (F64.dec 9 10) (F64.dec 1 10) (F64.dec 3 2) 3));
    reflexivity.
Defined.

(** C9, as stated for every [erode_alpha_px], fails: with
    [a_low >= a_high] and [erode_alpha_px = 2 ^ 1024] the call raises
    [OverflowError]. *)
Lemma C9_counterexample :
  let cfg := Config (F64.of_Z 255) (F64.dec 9 10) (F64.dec 1 10) (F64.of_Z 1)
                    (2 ^ 1024) in
  SFleb (a_high cfg) (a_low cfg) = true /\
  defringe_core cfg [[px 200 200 200 128]] = Raise OverflowError.
Proof. cbv zeta. split; vm_compute; reflexivity. Qed.

(** C10, as the code has it: for a strength between 0 and 1 and a
    background that is finite as a [float32], every RGB sample of [out]
    is a finite value at least 0 and below 256 (rounding can take it one
    step above 255), so that the cast to 8 bits is plain truncation and
    does not wrap around. *)
Theorem C10_cast_does_not_wrap cfg d p :
  F64.valid (strength cfg) = true ->
  SFleb (F64.of_Z 0) (strength cfg) = true ->
  SFleb (strength cfg) (F64.of_Z 1) = true ->
  F64.valid (bg cfg) = true -> is_finite (F32.of_f64 (bg cfg)) = true ->
  no_wrap (fR (out_pixel cfg d p)) /\
  no_wrap (fG (out_pixel cfg d p)) /\
  no_wrap (fB (out_pixel cfg d p)).
Proof.
  intros Vs L0 L1 Vbg Fbg. unfold out_pixel. cbn [fR fG fB].
  repeat split; apply (rgb_new_in_range 2200); assumption || lia.
Qed.

Lemma C10_witness :
  let cfg := Config (F64.of_Z 255) (F64.dec 5 100) (F64.dec 95 100)
                    (F64.dec 73 100) 0 in
  no_wrap (fR (out_pixel cfg None (px 255 255 255 100))).
Proof.
  cbv zeta.
  apply (C10_cast_does_not_wrap
           (Config (F64.of_Z 255) (F64.dec 5 100) (F64.dec 95 100)
                   (F64.dec 73 100) 0)
           None (px 255 255 255 100)); reflexivity.
Defined.

(** C10, as stated, fails: with strength 0.73 (and the default background
    and thresholds) the white pixel of alpha 100 has the RGB sample
    255 + 2^-16 before the cast. *)
Lemma C10_counterexample :
  let cfg := Config (F64.of_Z 255) (F64.dec 5 100) (F64.dec 95 100)
                    (F64.dec 73 100) 0 in
  SFleb (F64.of_Z 0) (strength cfg) = true /\
  SFleb (strength cfg) (F64.of_Z 1) = true /\
  edge cfg (alpha (px 255 255 255 100)) = true /\
  fR (out_pixel cfg None (px 255 255 255 100))
    = S754_finite false 16711681 (-16) /\
  F32.ltb (F32.of_Z 255) (fR (out_pixel cfg None (px 255 255 255 100))) = true /\
  F32.leb (fR (out_pixel cfg None (px 255 255 255 100))) (F32.of_Z 255) = false.
Proof. cbv zeta. repeat split; vm_compute; reflexivity. Qed.
